(** * Lecture-slide generators: a shallow embedding of their computational core

    The repository is a collection of plotting scripts.  The parts that
    compute something are embedded here, one module per source file:

    - [NX]               the fragment of [networkx.Graph] the scripts rely on
    - [NXOrdered]        the same with the order of insertion, for [G.edges()]
    - [SmallWorld]       [gen_07_small_world.py]       (rewired-edge detection)
    - [Cayley]           [gen_04_cayley_trees.py]      (Pruefer decoding)
    - [Heatmap]          [gen_20_attention_heatmap.py] (the attention matrix)
    - [Py]               statements that change the world and may raise
    - [Runner]           [generate_all.py]             (both runners)
    - [Download]         [download_external.py], [download_portraits.py]
    - [Script]           the statements of a generator that touch the file
                         system, and the scripts of the three directories
    - [Repo]             the scripts on a file system that records the saves
    - [Softmax]          [gen_03_softmax.py]
    - [GradientDescent]  [gen_05_gradient_descent.py]

    Python integers are unbounded: node labels are [nat], counters that
    are decremented are [Z].  A Python [dict] is a [gmap], a [set] or
    [frozenset] a [gset], and an association list where the order of
    insertion is observed.  An exception is the [None] of an [option]
    where nothing catches it and its kind does not matter, and the
    [Raises] of the monad [Py.M] where the source has a handler: the
    handlers are for [Exception], so they let [KeyboardInterrupt] and
    [SystemExit] through.  Floating-point functions of the C library and
    of numpy are parameters.

    The definitions come first; the facts about them follow. *)

From Stdlib Require Import ZArith Lia Ascii String QArith Reals Lra Floats.
From stdpp Require Import gmap strings list fin_maps sorting.

(** ** networkx.Graph *)

Module NX.

(** [Graph._adj]: every node is a key; its value is the set of its
    neighbours.  An undirected edge [u - v] is stored in both directions. *)
Abbreviation Graph := (gmap nat (gset nat)).

(** [nx.Graph()] *)
Definition empty_graph : Graph := ∅.

(** [G.add_node(u)]: a node already present keeps its neighbours. *)
Definition add_node (G : Graph) (u : nat) : Graph :=
  match G !! u with
  | Some _ => G
  | None => <[u := ∅]> G
  end.

(** [G.adj[u]] as a set, empty for a node that is not in the graph. *)
Definition neighbors (G : Graph) (u : nat) : gset nat := default ∅ (G !! u).

(** [G.add_edge(u, v)]: both endpoints become nodes, then
    [_adj[u][v]] and [_adj[v][u]] are set. *)
Definition add_edge (G : Graph) (u v : nat) : Graph :=
  let G1 := add_node (add_node G u) v in
  let G2 := <[u := {[v]} ∪ neighbors G1 u]> G1 in
  <[v := {[u]} ∪ neighbors G2 v]> G2.

(** [G.add_nodes_from(l)] *)
Definition add_nodes_from (G : Graph) (l : list nat) : Graph :=
  foldl add_node G l.

(** [G.add_edges_from(l)] *)
Definition add_edges_from (G : Graph) (l : list (nat * nat)) : Graph :=
  foldl (λ G e, add_edge G e.1 e.2) G l.

(** [G.nodes()] as a set, and [len(G)]. *)
Definition nodes (G : Graph) : gset nat := dom G.
Definition number_of_nodes (G : Graph) : nat := size (nodes G).

(** [G.has_edge(u, v)] *)
Definition has_edge (G : Graph) (u v : nat) : bool :=
  bool_decide (v ∈ neighbors G u).

(** [G.degree(u)]: a self-loop counts twice. *)
Definition degree (G : Graph) (u : nat) : nat :=
  size (neighbors G u) + (if has_edge G u u then 1 else 0).

(** [G.number_of_edges()], which networkx computes as
    [sum(d for v, d in G.degree()) // 2]. *)
Definition number_of_edges (G : Graph) : nat :=
  sum_list (degree G <$> elements (nodes G)) / 2.

(** [nx.is_connected(G)] as a proposition: any two nodes are joined by a
    walk. *)
Definition connected (G : Graph) : Prop :=
  ∀ x y, x ∈ nodes G → y ∈ nodes G → rtc (λ a b, has_edge G a b = true) x y.

(** A cycle of a relation [R] is a closed walk [c_0, c_1, ..., c_(k-1), c_0]
    that repeats no node; a self-loop is a cycle of length one, and going
    back and forth along one edge ([k = 2]) is not a cycle. *)
Definition cycle (R : nat → nat → Prop) (c : list nat) : Prop :=
  c ≠ [] ∧ length c ≠ 2 ∧ NoDup c ∧
  ∀ i x y, c !! i = Some x → c !! ((i + 1) mod length c) = Some y → R x y.

Definition is_cycle (G : Graph) (c : list nat) : Prop :=
  cycle (λ x y, has_edge G x y = true) c.

Definition acyclic (G : Graph) : Prop := ∀ c, ¬ is_cycle G c.

(** [nx.is_tree(G)]: connected, without cycles, and one edge less than
    there are nodes. *)
Definition is_tree (G : Graph) : Prop :=
  connected G ∧ acyclic G ∧ number_of_edges G + 1 = number_of_nodes G.

End NX.

(** ** networkx.Graph, with the order of insertion

    [G.edges()] reports an edge from the endpoint that was inserted
    first, and the neighbours of a node in the order in which they were
    added: the adjacency is a dict of dicts, and a dict keeps its keys
    in insertion order.  [NX] above forgets that order, which no function
    of gen_04_cayley_trees.py observes; gen_07_small_world.py iterates
    over [G.edges()] and keeps the tuples, so its graphs are the
    adjacency as an association list: every node with its neighbours,
    both in insertion order. *)

Module NXOrdered.

Abbreviation Graph := (list (nat * list nat)).

(** [nx.Graph()] *)
Definition empty_graph : Graph := [].

(** [list(G.nodes())] *)
Definition nodes (G : Graph) : list nat := G.*1.

(** The invariant of a dict of dicts: no key twice. *)
Definition well_formed (G : Graph) : Prop :=
  NoDup (nodes G) ∧ Forall (λ a, NoDup a.2) G.

(** [G.add_node(n)]: a new node goes last. *)
Definition add_node (G : Graph) (n : nat) : Graph :=
  if bool_decide (n ∈ nodes G) then G else G ++ [(n, [])].

(** [G._adj[u][v] = datadict]: a new key goes last, a key that is there
    keeps its place. *)
Definition set_adj (G : Graph) (u v : nat) : Graph :=
  (λ a, if bool_decide (a.1 = u)
        then (a.1, if bool_decide (v ∈ a.2) then a.2 else a.2 ++ [v])
        else a) <$> G.

(** [G.add_edge(u, v)]: both endpoints become nodes, [u] first, then
    [_adj[u][v]] and [_adj[v][u]] are set. *)
Definition add_edge (G : Graph) (u v : nat) : Graph :=
  set_adj (set_adj (add_node (add_node G u) v) u v) v u.

(** The iteration of [G.edges()]:
    [for n, nbrs in adj.items(): for nbr in nbrs: if nbr not in seen:
    yield (n, nbr)], with [seen[n] = 1] after the neighbours of [n]. *)
Fixpoint edges_seen (seen : list nat) (G : Graph) : list (nat * nat) :=
  match G with
  | [] => []
  | (n, nbrs) :: rest =>
      ((λ nbr, (n, nbr)) <$> filter (λ nbr, nbr ∉ seen) nbrs)
      ++ edges_seen (n :: seen) rest
  end.

(** [list(G.edges())] *)
Definition edges (G : Graph) : list (nat * nat) := edges_seen [] G.

End NXOrdered.

(** ** gen_07_small_world.py *)

Module SmallWorld.
Import NXOrdered.

(** [frozenset(e)] for an edge tuple [e = (u, v)]. *)
Definition frozenset (e : nat * nat) : gset nat := {[e.1; e.2]}.

(** [detect_rewired_edges(G_regular, G_rewired)]: the edges of
    [G_rewired], in iteration order, split into those whose endpoint set
    is an edge of [G_regular] and the others. *)
Definition detect_rewired_edges (G_regular G_rewired : Graph)
  : list (nat * nat) * list (nat * nat) :=
  let regular_set : gset (gset nat) := list_to_set (frozenset <$> edges G_regular) in
  foldl (λ '(kept, rewired) e,
           if bool_decide (frozenset e ∈ regular_set)
           then (kept ++ [e], rewired)
           else (kept, rewired ++ [e]))
        ([], []) (edges G_rewired).

End SmallWorld.

(** ** gen_04_cayley_trees.py *)

Module Cayley.
Import NX.

(** [degree = {i: 1 for i in range(1, n + 1)}] *)
Definition init_degree (n : nat) : gmap nat Z :=
  list_to_map ((λ i, (i, 1%Z)) <$> seq 1 n).

(** [degree[v] += k]; a key that is missing raises [KeyError]. *)
Definition bump (k : Z) (v : nat) (degree : gmap nat Z) : option (gmap nat Z) :=
  d ← degree !! v; Some (<[v := (d + k)%Z]> degree).

(** [for v in prufer_seq: degree[v] += 1] *)
Fixpoint count_degrees (prufer_seq : list nat) (degree : gmap nat Z)
  : option (gmap nat Z) :=
  match prufer_seq with
  | [] => Some degree
  | v :: rest => degree' ← bump 1 v degree; count_degrees rest degree'
  end.

(** The inner loop up to its [break]: the first [u] of the range with
    [degree[u] == 1], if there is one. *)
Fixpoint find_leaf (us : list nat) (degree : gmap nat Z) : option (option nat) :=
  match us with
  | [] => Some None
  | u :: rest =>
      d ← degree !! u;
      if bool_decide (d = 1%Z) then Some (Some u) else find_leaf rest degree
  end.

(** One pass of the outer loop, for the sequence element [v]. *)
Definition attach (n : nat) (st : gmap nat Z * list (nat * nat)) (v : nat)
  : option (gmap nat Z * list (nat * nat)) :=
  r ← find_leaf (seq 1 n) st.1;
  match r with
  | Some u =>
      degree1 ← bump (-1) u st.1;
      degree2 ← bump (-1) v degree1;
      Some (degree2, st.2 ++ [(u, v)])
  | None => Some st
  end.

(** [for v in seq: ...] *)
Fixpoint attach_all (n : nat) (st : gmap nat Z * list (nat * nat)) (s : list nat)
  : option (gmap nat Z * list (nat * nat)) :=
  match s with
  | [] => Some st
  | v :: rest => st' ← attach n st v; attach_all n st' rest
  end.

(** [[u for u in range(1, n + 1) if degree[u] == 1]] *)
Fixpoint leaves (us : list nat) (degree : gmap nat Z) : option (list nat) :=
  match us with
  | [] => Some []
  | u :: rest =>
      d ← degree !! u;
      l ← leaves rest degree;
      Some (if bool_decide (d = 1%Z) then u :: l else l)
  end.

(** [prufer_to_tree(prufer_seq, n)] *)
Definition prufer_to_tree (prufer_seq : list nat) (n : nat)
  : option (list (nat * nat)) :=
  degree ← count_degrees prufer_seq (init_degree n);
  st ← attach_all n (degree, []) prufer_seq;
  last ← leaves (seq 1 n) st.1;
  Some (match last with
        | [a; b] => st.2 ++ [(a, b)]
        | _ => st.2
        end).

(** [itertools.product(pool, repeat=k)], in the order Python yields it
    (the last position varies fastest). *)
Fixpoint product {A} (pool : list A) (k : nat) : list (list A) :=
  match k with
  | 0 => [[]]
  | S k' => x ← pool; (x ::.) <$> product pool k'
  end.

(** The graph built from one decoded sequence. *)
Definition graph_of (n : nat) (es : list (nat * nat)) : Graph :=
  add_edges_from (add_nodes_from empty_graph (seq 1 n)) es.

(** The body of the loop of [all_labeled_trees]: the graph of one
    sequence. *)
Definition decode_graph (n : nat) (s : list nat) : option Graph :=
  es ← prufer_to_tree s n; Some (graph_of n es).

(** [all_labeled_trees(n)].  For [n = 0] the call
    [itertools.product(..., repeat=-2)] raises [ValueError]. *)
Definition all_labeled_trees (n : nat) : option (list Graph) :=
  match n with
  | 1 => Some [empty_graph]
  | 2 => Some [add_edge empty_graph 1 2]
  | 0 => None
  | _ => mapM (decode_graph n) (product (seq 1 n) (n - 2))
  end.

(** *** Vocabulary for the specification

    [adj es] is the adjacency relation of the undirected graph with the
    edge list [es]. *)
Definition adj (es : list (nat * nat)) (x y : nat) : Prop :=
  (x, y) ∈ es ∨ (y, x) ∈ es.

(** [leaf R V u v]: in the graph with the nodes [V] and the adjacency
    [R], the node [u] is a leaf and [v] is its only neighbour. *)
Definition leaf (R : nat → nat → Prop) (V : gset nat) (u v : nat) : Prop :=
  u ∈ V ∧ v ∈ V ∧ R u v ∧ ∀ w, w ∈ V → R u w → w = v.

(** The Pruefer sequence of a tree, as the textbooks define it: while the
    tree has more than two nodes, remove the leaf with the smallest
    label and write down its neighbour. *)
Inductive prufer_sequence (R : nat → nat → Prop) : gset nat → list nat → Prop :=
| prufer_two V : size V = 2 → prufer_sequence R V []
| prufer_remove V u v s :
    2 < size V →
    leaf R V u v →
    (∀ w v', w < u → ¬ leaf R V w v') →
    prufer_sequence R (V ∖ {[u]}) s →
    prufer_sequence R V (v :: s).

(** Decoding, as a relation: [decoded V s es] when the sequence [s] over
    the nodes [V] decodes to the edge list [es].  The node [u] joined to
    the head of the sequence is the smallest one that is still there and
    does not occur in the sequence; the last two nodes form the last
    edge. *)
Inductive decoded : gset nat → list nat → list (nat * nat) → Prop :=
| decoded_last a b : a < b → decoded {[a; b]} [] [(a, b)]
| decoded_leaf V u v s es :
    u ∈ V → u ∉ v :: s → (∀ w, w ∈ V → w < u → w ∈ v :: s) → v ∈ V →
    decoded (V ∖ {[u]}) s es →
    decoded V (v :: s) ((u, v) :: es).

(** The state of the loop of [prufer_to_tree]: [d] is the [degree] dict,
    [V] the nodes not yet removed and [s] the rest of the sequence.  A
    node that is left has one more than its number of occurrences in
    [s], a node that was removed has zero. *)
Definition loop_inv (n : nat) (d : gmap nat Z) (V : gset nat) (s : list nat) : Prop :=
  (∀ x, x ∈ V → 1 ≤ x ≤ n) ∧
  (∀ x, 1 ≤ x ≤ n →
        d !! x = Some (if decide (x ∈ V)
                       then 1 + Z.of_nat (count_occ Nat.eq_dec s x) else 0)%Z) ∧
  (∀ x, x ∈ s → x ∈ V) ∧
  size V = length s + 2.

(** An undirected graph: adjacency is symmetric. *)
Definition undirected (G : Graph) : Prop :=
  ∀ u v, v ∈ neighbors G u → u ∈ neighbors G v.

(** The nodes [1, ..., n]. *)
Definition labels (n : nat) : gset nat := list_to_set (seq 1 n).

(** A tree given by its nodes [V] and the neighbours [N x] of each node:
    adjacency is symmetric and irreflexive, any two nodes are joined by
    a walk, and the degrees add up to less than twice the number of
    nodes. *)
Definition tree_on (V : gset nat) (N : nat → gset nat) : Prop :=
  (∀ x y, x ∈ V → y ∈ V → y ∈ N x → x ∈ N y) ∧
  (∀ x, x ∈ V → x ∉ N x) ∧
  (∀ x y, x ∈ V → y ∈ V → rtc (λ a b, a ∈ V ∧ b ∈ V ∧ b ∈ N a) x y) ∧
  sum_list_with (λ x, size (N x ∩ V)) (elements V) < 2 * size V.

End Cayley.

(** ** gen_20_attention_heatmap.py

    The weights are Python floats: they are kept as binary64 values, so
    the matrix below is the one numpy holds, bit for bit. *)

Module Heatmap.

Definition WORDS : list string := ["The"; "cat"; "sat"; "on"; "the"; "mat"].
Definition N : nat := length WORDS.

#[local] Set Warnings "-inexact-float".

(** [ATTENTION]: the dict literal, as its items in insertion order.  The
    keys are the frozensets written in the source. *)
Definition ATTENTION : list (gset nat * float) :=
  [ ({[1; 2]}, 0.90%float);
    ({[3; 5]}, 0.70%float);
    ({[0; 1]}, 0.60%float);
    ({[2; 3]}, 0.50%float);
    ({[4; 5]}, 0.45%float);
    ({[1; 5]}, 0.35%float);
    ({[0; 2]}, 0.25%float);
    ({[2; 5]}, 0.20%float);
    ({[1; 3]}, 0.20%float);
    ({[3; 4]}, 0.18%float);
    ({[0; 5]}, 0.15%float);
    ({[0; 4]}, 0.12%float);
    ({[0; 3]}, 0.10%float);
    ({[1; 4]}, 0.10%float);
    ({[2; 4]}, 0.10%float) ].

#[local] Set Warnings "inexact-float".

(** [np.zeros((rows, cols))] *)
Definition zeros (rows cols : nat) : list (list float) :=
  replicate rows (replicate cols 0%float).

(** [i, j = sorted(pair)]: unpacking anything but two elements raises
    [ValueError]. *)
Definition sorted_pair (key : gset nat) : option (nat * nat) :=
  match merge_sort (≤) (elements key) with
  | [i; j] => Some (i, j)
  | _ => None
  end.

(** [mat[i, j] = weight]; an index out of range raises [IndexError]. *)
Definition set_cell (mat : list (list float)) (i j : nat) (weight : float)
  : option (list (list float)) :=
  row ← mat !! i;
  if bool_decide (j < length row) then Some (<[i := <[j := weight]> row]> mat)
  else None.

(** [np.fill_diagonal(mat, v)] *)
Definition fill_diagonal (mat : list (list float)) (v : float) : list (list float) :=
  imap (λ i row, <[i := v]> row) mat.

(** The loop over [ATTENTION.items()]. *)
Fixpoint fill (mat : list (list float)) (items : list (gset nat * float))
  : option (list (list float)) :=
  match items with
  | [] => Some mat
  | (key, weight) :: rest =>
      ij ← sorted_pair key;
      mat1 ← set_cell mat ij.1 ij.2 weight;
      mat2 ← set_cell mat1 ij.2 ij.1 weight;
      fill mat2 rest
  end.

(** [build_matrix()], with the table it reads as a parameter. *)
Definition build_matrix_from (table : list (gset nat * float))
  : option (list (list float)) :=
  mat ← fill (zeros N N) table;
  Some (fill_diagonal mat 1%float).

Definition build_matrix : option (list (list float)) := build_matrix_from ATTENTION.

(** [mat[i, j]] *)
Definition cell (mat : list (list float)) (i j : nat) : option float :=
  row ← mat !! i; row !! j.

(** [mat[i].sum()], adding from left to right. *)
Definition row_sum (row : list float) : float := foldl PrimFloat.add 0%float row.

End Heatmap.

(** ** Scripts that call fallible operations

    The runner and the downloaders wrap the operations that may fail in
    [try: ... except Exception: ...].  They are embedded in a state and
    error monad: a computation takes the state of the outside world and
    returns the new state with either a value or the exception raised.
    [exn] stands for the exception objects, and [is_Exception] tells the
    instances of [Exception] from the others ([KeyboardInterrupt],
    [SystemExit] and [GeneratorExit] derive from [BaseException] only), so
    that a handler for [Exception] lets the others through.
    [os.makedirs] and [print], which the scripts do not guard, are taken
    to succeed. *)

Module Py.

Inductive outcome (exn A : Type) : Type :=
| Returns (a : A)
| Raises (e : exn).
Arguments Returns {exn A} a.
Arguments Raises {exn A} e.

Definition M (S exn A : Type) : Type := S → S * outcome exn A.

Definition ret {S exn A} (a : A) : M S exn A := λ s, (s, Returns a).

Definition raise {S exn A} (e : exn) : M S exn A := λ s, (s, Raises e).

Definition bind {S exn A B} (m : M S exn A) (k : A → M S exn B) : M S exn B :=
  λ s, match m s with
       | (s', Returns a) => k a s'
       | (s', Raises e) => (s', Raises e)
       end.

(** [isinstance(e, Exception)] *)
Class ExceptionClass (exn : Type) := is_Exception : exn → bool.

(** [try: body  except Exception as e: handler(e)]: an exception that is
    not an instance of [Exception] is not caught. *)
Definition try_except_Exception {S exn A} `{ExceptionClass exn}
    (body : M S exn A) (handler : exn → M S exn A) : M S exn A :=
  λ s, match body s with
       | (s', Returns a) => (s', Returns a)
       | (s', Raises e) => if is_Exception e then handler e s' else (s', Raises e)
       end.

(** An operation that cannot fail. *)
Definition lift {S exn} (f : S → S) : M S exn unit := λ s, (f s, Returns tt).

(** [for x in xs: body(x)] *)
Fixpoint for_each {S exn A} (xs : list A) (body : A → M S exn unit) : M S exn unit :=
  match xs with
  | [] => ret tt
  | x :: rest => bind (body x) (λ _, for_each rest body)
  end.

(** Vocabulary for the loops that count: given each item with whether
    it succeeded, how many succeeded and the names of those that failed. *)
Definition successes_of (runs : list (string * bool)) : nat :=
  length (filter (λ r, r.2 = true) runs).
Definition failures_of (runs : list (string * bool)) : list string :=
  (filter (λ r, r.2 = false) runs).*1.

Global Instance M_ret {S exn} : MRet (M S exn) := λ A, ret.
Global Instance M_bind {S exn} : MBind (M S exn) := λ A B k m, bind m k.

(** Exception objects, for the runs that are written out: the two that
    the interpreter raises on Ctrl-C and on [sys.exit(code)], and the
    instances of [Exception], with their class and message. *)
Inductive exception :=
| KeyboardInterrupt
| SystemExit (code : Z)
| ExceptionInstance (class_name message : string).

Global Instance exception_class : ExceptionClass exception :=
  λ e, match e with
       | ExceptionInstance _ _ => true
       | KeyboardInterrupt | SystemExit _ => false
       end.

End Py.

(** ** generate_all.py (both copies differ only in [SCRIPTS] and in the
    lecture named by the banner) *)

Module Runner.
Import Py.

Section runner.
(** The interpreter, the import system and the file system. *)
Context {World exn : Type} `{!ExceptionClass exn}.

(** An imported module: its [main] attribute when it has one, as the
    effect of calling it. *)
Record pymodule := { py_main : option (World → World * outcome exn unit) }.

(** What the runner prints. *)
Inductive event :=
| Banner
| Heading (total : nat) (lecture : string)
| OutputDirectory (dir : string)
| Progress (i total : nat) (script_name : string)
| Done
| Failed
| Summary (successes total : nat)
| FailedNames (failures : list string)
| Traceback (e : exn).

Record state := { world : World; out : list event }.

Variable import_module : string → World → World * outcome exn pymodule.
Variable makedirs : string → World → World.
Variable sys_path_add : string → World → World.
Variable abspath : string → string.
Variable SCRIPT_DIR IMAGES_DIR lecture : string.
Variable SCRIPTS : list string.

Definition in_world {A} (f : World → World * outcome exn A) : M state exn A :=
  λ st, let (w, r) := f (world st) in ({| world := w; out := out st |}, r).

Definition print (e : event) : M state exn unit :=
  lift (λ st, {| world := world st; out := out st ++ [e] |}).

(** [run_script(module_name)] *)
Definition run_script (module_name : string) : M state exn bool :=
  try_except_Exception
    (m ← in_world (import_module module_name);
     match py_main m with
     | Some main => in_world main;; ret true
     | None => ret true
     end)
    (λ e, print (Traceback e);; ret false).

(** The loop of [main] with the counters it keeps; [i] is the index that
    [enumerate(SCRIPTS, 1)] supplies. *)
Fixpoint run_all (total i : nat) (scripts : list string)
    (successes : nat) (failures : list string)
  : M state exn (nat * list string) :=
  match scripts with
  | [] => ret (successes, failures)
  | script_name :: rest =>
      print (Progress i total script_name);;
      ok ← run_script script_name;
      if ok : bool
      then print Done;; run_all total (S i) rest (successes + 1) failures
      else print Failed;;
           run_all total (S i) rest successes (failures ++ [script_name])
  end.

(** [main()] *)
Definition main : M state exn Z :=
  lift (λ st, {| world := makedirs IMAGES_DIR (world st); out := out st |});;
  lift (λ st, {| world := sys_path_add SCRIPT_DIR (world st); out := out st |});;
  let total := length SCRIPTS in
  print Banner;;
  print (Heading total lecture);;
  print (OutputDirectory (abspath IMAGES_DIR));;
  print Banner;;
  r ← run_all total 1 SCRIPTS 0 [];
  print Banner;;
  print (Summary r.1 total);;
  (if bool_decide (r.2 = []) then ret tt else print (FailedNames r.2));;
  print Banner;;
  ret (if bool_decide (r.2 = []) then 0 else 1)%Z.

(** Vocabulary for the specification of the runner.  [script_effect]
    is what importing a module and calling its [main], when it defines
    one, does to the world, with the exception raised on the way, if any. *)
Definition script_effect (module_name : string) (w : World) : World * option exn :=
  match import_module module_name w with
  | (w1, Raises e) => (w1, Some e)
  | (w1, Returns m) =>
      match py_main m with
      | None => (w1, None)
      | Some main =>
          match main w1 with
          | (w2, Returns _) => (w2, None)
          | (w2, Raises e) => (w2, Some e)
          end
      end
  end.

(** The scripts of a list, run one after the other from the world [w]
    until one of them raises an exception that is not an [Exception]:
    each script that was run to its end or to an [Exception], with
    whether it ran without one, the world after the last script that was
    started, and the exception that ended the run, if any. *)
Fixpoint run_log (scripts : list string) (w : World)
  : list (string * bool) * World * option exn :=
  match scripts with
  | [] => ([], w, None)
  | script_name :: rest =>
      match script_effect script_name w with
      | (w', None) =>
          let '(runs, w'', stop) := run_log rest w' in
          ((script_name, true) :: runs, w'', stop)
      | (w', Some e) =>
          if is_Exception e
          then let '(runs, w'', stop) := run_log rest w' in
               ((script_name, false) :: runs, w'', stop)
          else ([], w', Some e)
      end
  end.

End runner.

Arguments event : clear implicits.
Arguments state : clear implicits.
Arguments pymodule : clear implicits.

End Runner.

(** ** download_external.py and download_portraits.py

    The two scripts are the same program over two tables; they differ in
    the table, the destination directory, the [User-Agent] header and
    the noun of the banner. *)

Module Download.
Import Py.

(** [os.path.join(a, b)] of [posixpath]. *)
Definition path_join (a b : string) : string :=
  if String.prefix "/" b then b
  else if bool_decide (a = "") || bool_decide (last (String.list_ascii_of_string a) = Some "/"%char)
       then a +:+ b
       else a +:+ "/" +:+ b.

Section download.
Context {World exn : Type} `{!ExceptionClass exn}.

Abbreviation bytes := (list Byte.byte).

(** What a downloader prints. *)
Inductive event :=
| Banner
| Heading (total : nat) (what : string)
| OutputDirectory (dir : string)
| Downloading (filename description : string)
| Saved (filename : string) (size_in_bytes : nat)
| Warning (filename : string) (e : exn)
| ManualDownload (url : string)
| SaveTo (dest_path : string)
| Blank
| Summary (successes total : nat) (what : string)
| FailedNames (failures : list string)
| SeeWarnings.

Record state := { world : World; out : list event }.

(** [urllib.request.Request(url, headers={'User-Agent': agent})], then
    [urlopen(req, timeout=30)] and [response.read()]. *)
Variable fetch : string → string → World → World * outcome exn bytes.
(** [with open(path, 'wb') as f: f.write(data)] *)
Variable write_file : string → bytes → World → World * outcome exn unit.
Variable makedirs : string → World → World.
Variable abspath : string → string.
(** [os.path.dirname(os.path.abspath(__file__))] of the script. *)
Variable SCRIPT_DIR : string.

Definition in_world {A} (f : World → World * outcome exn A) : M state exn A :=
  λ st, let (w, r) := f (world st) in ({| world := w; out := out st |}, r).

Definition print (e : event) : M state exn unit :=
  lift (λ st, {| world := world st; out := out st ++ [e] |}).

(** The body shared by [download_external] and [download_portrait]. *)
Definition download (agent filename url description dest_dir : string)
  : M state exn bool :=
  let dest_path := path_join dest_dir filename in
  try_except_Exception
    (print (Downloading filename description);;
     data ← in_world (fetch agent url);
     in_world (write_file dest_path data);;
     print (Saved filename (length data));;
     ret true)
    (λ e,
     print (Warning filename e);;
     print (ManualDownload url);;
     print (SaveTo dest_path);;
     ret false).

(** [download_external(filename, url, description, dest_dir)] *)
Definition download_external :=
  download "MathForAI-Slides/1.0 (educational presentation)".

(** [download_portrait(filename, url, description, dest_dir)] *)
Definition download_portrait := download "Mozilla/5.0".

(** The loop of [main] with its two counters. *)
Fixpoint download_all (fn : string → string → string → string → M state exn bool)
    (dest_dir : string) (items : list (string * string * string))
    (successes : nat) (failures : list string)
  : M state exn (nat * list string) :=
  match items with
  | [] => ret (successes, failures)
  | (filename, url, description) :: rest =>
      ok ← fn filename url description dest_dir;
      let successes' := if ok : bool then successes + 1 else successes in
      let failures' := if ok then failures else failures ++ [filename] in
      print Blank;;
      download_all fn dest_dir rest successes' failures'
  end.

(** The body shared by the two [main()]: the download function, the
    noun of the banner, the destination and the table. *)
Definition main_of (fn : string → string → string → string → M state exn bool)
    (what dest_dir : string) (items : list (string * string * string))
  : M state exn Z :=
  lift (λ st, {| world := makedirs dest_dir (world st); out := out st |});;
  let total := length items in
  print Banner;;
  print (Heading total what);;
  print (OutputDirectory (abspath dest_dir));;
  print Banner;;
  r ← download_all fn dest_dir items 0 [];
  print Banner;;
  print (Summary r.1 total what);;
  (if bool_decide (r.2 = []) then ret tt
   else print (FailedNames r.2);; print SeeWarnings);;
  print Banner;;
  ret (if bool_decide (r.2 = []) then 0 else 1)%Z.

(** [EXTERNALS] of download_external.py: (filename, url, description). *)
Definition EXTERNALS : list (string * string * string) :=
  [ ("xkcd-machine-learning.png",
     "https://imgs.xkcd.com/comics/machine_learning.png",
     "XKCD #1838: Machine Learning (CC BY-NC 2.5)");
    ("xkcd-curve-fitting.png",
     "https://imgs.xkcd.com/comics/curve_fitting.png",
     "XKCD #2048: Curve-Fitting (CC BY-NC 2.5)");
    ("xkcd-frequentists-bayesians.png",
     "https://imgs.xkcd.com/comics/frequentists_vs_bayesians.png",
     "XKCD #1132: Frequentists vs Bayesians (CC BY-NC 2.5)");
    ("principia-title-page.jpg",
     "https://upload.wikimedia.org/wikipedia/commons/e/e9/Principia_Mathematica_1713.JPG",
     "Newton Principia Mathematica title page (CC BY 4.0)") ].

(** [PORTRAITS] of download_portraits.py. *)
Definition PORTRAITS : list (string * string * string) :=
  [ ("grassmann-1860.jpg",
     "https://upload.wikimedia.org/wikipedia/commons/thumb/5/59/Hermann_Grassmann.jpg/440px-Hermann_Grassmann.jpg",
     "Hermann Grassmann portrait");
    ("pascal-1663.jpg",
     "https://upload.wikimedia.org/wikipedia/commons/thumb/9/98/Blaise_Pascal_Versailles.JPG/440px-Blaise_Pascal_Versailles.JPG",
     "Blaise Pascal (Versailles portrait by Quesnel)");
    ("newton-1689.jpg",
     "https://upload.wikimedia.org/wikipedia/commons/thumb/3/3b/GodfreyKneller-IsaacNewton-1689.jpg/440px-GodfreyKneller-IsaacNewton-1689.jpg",
     "Isaac Newton (Kneller 1689)");
    ("leibniz-1695.jpg",
     "https://upload.wikimedia.org/wikipedia/commons/thumb/6/6a/Gottfried_Wilhelm_von_Leibniz.jpg/440px-Gottfried_Wilhelm_von_Leibniz.jpg",
     "Gottfried Leibniz (Francke portrait)");
    ("shannon-1963.jpg",
     "https://upload.wikimedia.org/wikipedia/commons/thumb/9/9b/ClaudeShannon_MFO3807.jpg/440px-ClaudeShannon_MFO3807.jpg",
     "Claude Shannon at Bell Labs");
    ("hinton-2024.jpg",
     "https://upload.wikimedia.org/wikipedia/commons/thumb/8/8a/Geoffrey_Hinton_Royal_Society.jpg/440px-Geoffrey_Hinton_Royal_Society.jpg",
     "Geoffrey Hinton (Nobel laureate)");
    ("cayley-1883.jpg",
     "https://upload.wikimedia.org/wikipedia/commons/thumb/a/a8/Arthur_Cayley.jpg/440px-Arthur_Cayley.jpg",
     "Arthur Cayley engraving");
    ("bayes.jpg",
     "https://upload.wikimedia.org/wikipedia/commons/thumb/d/d4/Thomas_Bayes.gif/440px-Thomas_Bayes.gif",
     "Thomas Bayes (disputed portrait)") ].

(** [EXTERNAL_DIR = os.path.join(SCRIPT_DIR, '..', 'images', 'external')] *)
Definition EXTERNAL_DIR : string :=
  path_join (path_join (path_join SCRIPT_DIR "..") "images") "external".

(** [PORTRAITS_DIR = os.path.join(SCRIPT_DIR, '..', 'images', 'portraits')] *)
Definition PORTRAITS_DIR : string :=
  path_join (path_join (path_join SCRIPT_DIR "..") "images") "portraits".

(** [main()] of download_external.py *)
Definition download_external_main : M state exn Z :=
  main_of download_external "external images" EXTERNAL_DIR EXTERNALS.

(** [main()] of download_portraits.py *)
Definition download_portraits_main : M state exn Z :=
  main_of download_portrait "portraits" PORTRAITS_DIR PORTRAITS.

(** Vocabulary for the specification of the downloaders.
    [download_effect] is what fetching [url] and writing the bytes to
    [dest_path] does to the world, with the exception raised, if any. *)
Definition download_effect (agent url dest_path : string) (w : World)
  : World * option exn :=
  match fetch agent url w with
  | (w1, Raises e) => (w1, Some e)
  | (w1, Returns data) =>
      match write_file dest_path data w1 with
      | (w2, Returns _) => (w2, None)
      | (w2, Raises e) => (w2, Some e)
      end
  end.

(** The items of a table downloaded one after the other from the world
    [w] until a download raises an exception that is not an [Exception]:
    each file name whose download came to an end, with whether it
    succeeded, the world after the last download that was started, and
    the exception that ended the run, if any. *)
Fixpoint download_log (agent dest_dir : string) (items : list (string * string * string))
    (w : World) : list (string * bool) * World * option exn :=
  match items with
  | [] => ([], w, None)
  | (filename, url, description) :: rest =>
      match download_effect agent url (path_join dest_dir filename) w with
      | (w', None) =>
          let '(runs, w'', stop) := download_log agent dest_dir rest w' in
          ((filename, true) :: runs, w'', stop)
      | (w', Some e) =>
          if is_Exception e
          then let '(runs, w'', stop) := download_log agent dest_dir rest w' in
               ((filename, false) :: runs, w'', stop)
          else ([], w', Some e)
      end
  end.

End download.

Arguments event : clear implicits.
Arguments state : clear implicits.

End Download.

(** ** The generator scripts

    Every generator builds one figure with matplotlib and hands it to
    [plt.savefig].  What is embedded of a script is its skeleton: the
    statements that touch the file system or the terminal, in the order
    and under the control flow of the source, around the plotting
    statements, which build the figure in memory and are one opaque step
    that may raise.  The interpreter and the file system are a parameter,
    as for the runner. *)

Module Script.
Import Py.

Fixpoint drop_while {A} (f : A → bool) (l : list A) : list A :=
  match l with
  | [] => []
  | x :: rest => if f x then drop_while f rest else l
  end.

(** [os.path.dirname(p)] of [posixpath]: [p] up to its last slash,
    without the trailing slashes unless nothing else is left. *)
Definition dirname (p : string) : string :=
  let slash := "/"%char in
  let head := rev (drop_while (λ c, negb (Ascii.eqb c slash))
                              (rev (String.list_ascii_of_string p))) in
  let stripped := rev (drop_while (λ c, Ascii.eqb c slash) (rev head)) in
  String.string_of_list_ascii (if stripped is [] then head else stripped).

Section script.
Context {World exn : Type}.

Variable makedirs : string → World → World.
(** The plotting statements of the named script, from the creation of
    the figure to the statement before [plt.savefig]. *)
Variable draw : string → World → World * outcome exn unit.
(** [plt.savefig(path, dpi=200, bbox_inches='tight', facecolor=BG,
    edgecolor='none')] *)
Variable savefig : string → World → World * outcome exn unit.
(** [plt.close(fig)] *)
Variable close : World → World.
(** [print(line)] *)
Variable print_line : string → World → World.
Variable abspath : string → string.
(** [SCRIPT_DIR = os.path.dirname(os.path.abspath(__file__))] *)
Variable SCRIPT_DIR : string.

(** A script: what importing it executes, and its [main] when it
    defines one. *)
Record script := {
  on_import : M World exn unit;
  main : option (M World exn unit)
}.

(** [os.path.join(SCRIPT_DIR, '..', 'images', name)] *)
Definition OUTPUT_PATH (name : string) : string :=
  Download.path_join
    (Download.path_join (Download.path_join SCRIPT_DIR "..") "images") name.

(** The statements every script but one shares:
    [os.makedirs(os.path.dirname(OUTPUT_PATH), exist_ok=True)], the
    plotting, [plt.savefig(OUTPUT_PATH, ...)], [plt.close(...)] and
    [print(f'Saved: {...}')]. *)
Definition figure (script_name : string) (shown : string → string) (path : string)
  : M World exn unit :=
  lift (makedirs (dirname path));;
  draw script_name;;
  savefig path;;
  lift close;;
  lift (print_line ("Saved: " +:+ shown path)).

(** gen_01 to gen_06 of lecture-08 have no [main]: the statements are at
    the top level of the module, and the line printed is [OUTPUT_PATH]
    as it is. *)
Definition figure_on_import (script_name image : string) : script :=
  {| on_import := figure script_name (λ p, p) (OUTPUT_PATH image);
     main := None |}.

(** The others define [main()], which holds the statements and prints
    [os.path.abspath(OUTPUT_PATH)]; importing them only defines names. *)
Definition figure_in_main (script_name image : string) : script :=
  {| on_import := ret tt;
     main := Some (figure script_name abspath (OUTPUT_PATH image)) |}.

(** gen_20_section_icons.py: [ICONS], (output_filename, symbol, color). *)
Definition BLUE : string := "#3498db".
Definition YELLOW : string := "#f1c40f".
Definition GREEN : string := "#2ecc71".
Definition TEAL : string := "#1abc9c".
Definition ORANGE : string := "#e67e22".

Definition ICONS : list (string * string * string) :=
  [ ("20a-icon-linalg.png", "[M]", BLUE);
    ("20b-icon-prob.png", "P(x)", GREEN);
    ("20c-icon-calc.png", "∇", ORANGE);
    ("20d-icon-info.png", "H", TEAL);
    ("20e-icon-optim.png", "↓", YELLOW) ].

(** Its [main()]: the statements are the body of
    [for filename, symbol, color in ICONS]. *)
Definition section_icons : script :=
  {| on_import := ret tt;
     main := Some (for_each ICONS (λ '(filename, symbol, color),
               figure "gen_20_section_icons" abspath (OUTPUT_PATH filename))) |}.

(** The scripts of slides/lecture-08/python, by module name. *)
Definition LECTURE_08 : list (string * script) :=
  [
    ("gen_01_konigsberg", figure_on_import "gen_01_konigsberg" "01-konigsberg-map.png");
    ("gen_02_konigsberg_graph", figure_on_import "gen_02_konigsberg_graph" "02-konigsberg-graph.png");
    ("gen_03_euler_path", figure_on_import "gen_03_euler_path" "03-euler-path-rule.png");
    ("gen_04_cayley_trees", figure_on_import "gen_04_cayley_trees" "04-cayley-trees.png");
    ("gen_05_parse_tree", figure_on_import "gen_05_parse_tree" "05-parse-tree.png");
    ("gen_06_random_graph", figure_on_import "gen_06_random_graph" "06-random-graph-phases.png");
    ("gen_07_small_world", figure_in_main "gen_07_small_world" "07-small-world.png");
    ("gen_08_six_degrees", figure_in_main "gen_08_six_degrees" "08-six-degrees.png");
    ("gen_09_pagerank", figure_in_main "gen_09_pagerank" "09-pagerank-web.png");
    ("gen_10_pagerank_surfer", figure_in_main "gen_10_pagerank_surfer" "10-pagerank-surfer.png");
    ("gen_11_nn_architectures", figure_in_main "gen_11_nn_architectures" "11-nn-architectures.png");
    ("gen_12_attention", figure_in_main "gen_12_attention" "12-attention-complete.png");
    ("gen_13_knowledge_graph", figure_in_main "gen_13_knowledge_graph" "13-knowledge-graph.png");
    ("gen_14_rag_pipeline", figure_in_main "gen_14_rag_pipeline" "14-rag-pipeline.png");
    ("gen_15_gnn_message", figure_in_main "gen_15_gnn_message" "15-gnn-message.png");
    ("gen_16_molecule", figure_in_main "gen_16_molecule" "16-molecule-graph.png");
    ("gen_17_timeline", figure_in_main "gen_17_timeline" "17-timeline-chain.png");
    ("gen_18_milgram_letters", figure_in_main "gen_18_milgram_letters" "18-milgram-letters.png");
    ("gen_19_graphrag_concept", figure_in_main "gen_19_graphrag_concept" "19-graphrag-concept.png");
    ("gen_20_attention_heatmap", figure_in_main "gen_20_attention_heatmap" "20-attention-heatmap.png");
    ("gen_21_multihead_attention", figure_in_main "gen_21_multihead_attention" "21-multihead-attention.png");
    ("gen_22_sparse_dense_attention", figure_in_main "gen_22_sparse_dense_attention" "22-sparse-dense-attention.png");
    ("gen_23_gnn_vs_transformer", figure_in_main "gen_23_gnn_vs_transformer" "23-gnn-vs-transformer.png");
    ("gen_24_emergence", figure_in_main "gen_24_emergence" "24-emergence-phase-transition.png");
    ("gen_25_math_constellation", figure_in_main "gen_25_math_constellation" "25-math-constellation.png");
    ("gen_26_attention_derivation", figure_in_main "gen_26_attention_derivation" "26-attention-derivation.png");
    ("gen_27_llm_cross_section", figure_in_main "gen_27_llm_cross_section" "27-llm-cross-section.png");
    ("gen_28_scaling_laws", figure_in_main "gen_28_scaling_laws" "28-scaling-laws.png");
    ("gen_29_five_pillars", figure_in_main "gen_29_five_pillars" "29-five-pillars.png") ].

(** The scripts of slides/lecture-new/python. *)
Definition LECTURE_NEW : list (string * script) :=
  [
    ("gen_02_word_vectors", figure_in_main "gen_02_word_vectors" "02-word-vectors.png");
    ("gen_04_galton_board", figure_in_main "gen_04_galton_board" "04-galton-board.png");
    ("gen_10_convergence", figure_in_main "gen_10_convergence" "10-convergence.png");
    ("gen_11_timeline", figure_in_main "gen_11_timeline" "11-timeline.png");
    ("gen_15_hero_neural_net", figure_in_main "gen_15_hero_neural_net" "15-hero-neural-net.png");
    ("gen_16_token_pipeline", figure_in_main "gen_16_token_pipeline" "16-token-pipeline.png");
    ("gen_18_backprop_flow", figure_in_main "gen_18_backprop_flow" "18-backprop-flow.png");
    ("gen_19_radar_pillars", figure_in_main "gen_19_radar_pillars" "19-radar-pillars.png");
    ("gen_20_section_icons", section_icons) ].

(** The scripts of slides/lecture-new-v2/python. *)
Definition LECTURE_NEW_V2 : list (string * script) :=
  [
    ("gen_01_five_pillars_overview", figure_in_main "gen_01_five_pillars_overview" "01-five-pillars-overview.png");
    ("gen_03_softmax", figure_in_main "gen_03_softmax" "03-softmax.png");
    ("gen_05_gradient_descent", figure_in_main "gen_05_gradient_descent" "05-gradient-descent.png");
    ("gen_06_cross_entropy", figure_in_main "gen_06_cross_entropy" "06-cross-entropy.png");
    ("gen_07_shannon_diagram", figure_in_main "gen_07_shannon_diagram" "07-shannon-diagram.png");
    ("gen_08_optimizers", figure_in_main "gen_08_optimizers" "08-optimizers.png");
    ("gen_09_scaling_laws", figure_in_main "gen_09_scaling_laws" "09-scaling-laws.png");
    ("gen_12_embedding_space", figure_in_main "gen_12_embedding_space" "12-embedding-space.png");
    ("gen_13_loss_curve", figure_in_main "gen_13_loss_curve" "13-loss-curve.png");
    ("gen_14_attention_heatmap", figure_in_main "gen_14_attention_heatmap" "14-attention-heatmap.png");
    ("gen_17_matrix_multiply", figure_in_main "gen_17_matrix_multiply" "17-matrix-multiply.png") ].

(** Executing a script, as [python gen_xx.py] or as the runner does:
    the module is executed, then its [main] when it has one. *)
Definition run (s : script) : M World exn unit :=
  on_import s;;
  match main s with
  | Some body => body
  | None => ret tt
  end.

End script.

Arguments script : clear implicits.

End Script.

(** ** The scripts on a file system that records what is written

    Runs of the interpreter in which the world is the list of the paths
    handed to [plt.savefig], in order; paths are relative to the
    checkout.  [draw_raises] gives the exception that the plotting
    statements of a script raise, if any, and [savefig_raises] the one
    that [plt.savefig] raises on a path, if any. *)

Module Repo.

Inductive lecture := Lecture08 | LectureNew | LectureNewV2.

Global Instance lecture_eq_dec : EqDecision lecture.
Proof. solve_decision. Defined.

(** [SCRIPT_DIR] of the scripts of a lecture. *)
Definition script_dir (l : lecture) : string :=
  match l with
  | Lecture08 => "slides/lecture-08/python"
  | LectureNew => "slides/lecture-new/python"
  | LectureNewV2 => "slides/lecture-new-v2/python"
  end.

(** [IMAGES_DIR = os.path.join(SCRIPT_DIR, '..', 'images')] of the
    runner of a lecture. *)
Definition images_dir (l : lecture) : string :=
  Download.path_join (Download.path_join (script_dir l) "..") "images".

(** [os.path.join(SCRIPT_DIR, '..', 'images', name)] *)
Definition output_path (l : lecture) (name : string) : string :=
  Download.path_join (images_dir l) name.

Definition recording_script : Type := Script.script (list string) Py.exception.

Definition raising (failure : option Py.exception) : Py.outcome Py.exception unit :=
  match failure with
  | Some e => Py.Raises e
  | None => Py.Returns tt
  end.

(** The scripts of a lecture's directory. *)
Definition scripts_with (draw_raises savefig_raises : string → option Py.exception)
    (l : lecture) : list (string * recording_script) :=
  let world_of (table : _ → _ → _ → _ → _ → _ → _ → list (string * recording_script)) :=
    table (λ _ w, w)
          (λ script_name w, (w, raising (draw_raises script_name)))
          (λ path w, (w ++ [path], raising (savefig_raises path)))
          (λ w, w)
          (λ _ w, w)
          (λ p, p)
          (script_dir l) in
  match l with
  | Lecture08 => world_of Script.LECTURE_08
  | LectureNew => world_of Script.LECTURE_NEW
  | LectureNewV2 => world_of Script.LECTURE_NEW_V2
  end.

(** The same when nothing raises. *)
Definition scripts : lecture → list (string * recording_script) :=
  scripts_with (λ _, None) (λ _, None).

(** All of them, with their lecture. *)
Definition GENERATORS : list (lecture * string * recording_script) :=
  l ← [Lecture08; LectureNew; LectureNewV2];
  (λ s, (l, s.1, s.2)) <$> scripts l.

(** The files a script saves when it is executed from an empty record. *)
Definition saved (s : recording_script) : list string := (Script.run s []).1.

(** [path.endswith(suffix)] *)
Definition endswith (path suffix : string) : bool :=
  String.prefix (String.rev suffix) (String.rev path).

(** [importlib.import_module(name)] in the directory of the lecture [l]:
    a name with no file raises [ModuleNotFoundError]. *)
Definition import_module (l : lecture) (name : string) (w : list string)
  : list string * Py.outcome Py.exception
                    (Runner.pymodule (list string) Py.exception) :=
  match list_find (λ s, s.1 = name) (scripts l) with
  | None =>
      (w, Py.Raises (Py.ExceptionInstance "ModuleNotFoundError"
                       ("No module named '" +:+ name +:+ "'")))
  | Some (_, (_, s)) =>
      match Script.on_import s w with
      | (w', Py.Returns _) => (w', Py.Returns {| Runner.py_main := Script.main s |})
      | (w', Py.Raises e) => (w', Py.Raises e)
      end
  end.

(** [SCRIPTS] of slides/lecture-08/python/generate_all.py *)
Definition SCRIPTS_lecture_08 : list string :=
  [ "gen_01_konigsberg"; "gen_02_konigsberg_graph"; "gen_03_euler_path";
    "gen_04_cayley_trees"; "gen_05_parse_tree"; "gen_06_random_graph";
    "gen_07_small_world"; "gen_08_six_degrees"; "gen_09_pagerank";
    "gen_10_pagerank_surfer"; "gen_11_nn_architectures"; "gen_12_attention";
    "gen_13_knowledge_graph"; "gen_14_rag_pipeline"; "gen_15_gnn_message";
    "gen_16_molecule"; "gen_17_timeline"; "gen_18_milgram_letters";
    "gen_19_graphrag_concept" ].

(** [python generate_all.py] in slides/lecture-08/python, when nothing
    raises in the scripts. *)
Definition generate_all_lecture_08
  : Py.M (Runner.state (list string) Py.exception) Py.exception Z :=
  Runner.main (import_module Lecture08) (λ _ w, w) (λ _ w, w) (λ p, p)
    (script_dir Lecture08) (images_dir Lecture08) "lecture-08" SCRIPTS_lecture_08.

End Repo.

(** ** gen_03_softmax.py

    [softmax] is written with numpy's operations on an array; what it
    returns depends on how these round.  The arithmetic of the array is
    a parameter: the operations on one entry, and the sum of an array.
    The real numbers are one instance; binary64, in which [main] calls
    the function, is another, with [np.exp] as a parameter. *)

Module Softmax.

Class Arith (F : Type) := {
  sub : F → F → F;                (* z - m *)
  div : F → F → F;                (* e / s *)
  exp : F → F;                    (* np.exp *)
  maximum : F → F → F;            (* np.maximum, of which np.max is the reduction *)
  sum : list F → F                (* e.sum() *)
}.

Section softmax.
Context {F : Type} {arith : Arith F}.

(** [np.max(z)]; the maximum of an empty array raises [ValueError]. *)
Definition np_max (z : list F) : option F :=
  match z with
  | [] => None
  | x :: rest => Some (foldl maximum x rest)
  end.

(** [softmax(z)]: [e = np.exp(z - np.max(z))], then [e / e.sum()]. *)
Definition softmax (z : list F) : option (list F) :=
  m ← np_max z;
  let e := (λ x, exp (sub x m)) <$> z in
  Some ((λ x, div x (sum e)) <$> e).

End softmax.

(** The real numbers. *)
Definition real_sum (e : list R) : R := foldr Rplus 0%R e.

Definition reals : Arith R :=
  {| sub := Rminus; div := Rdiv; exp := Rtrigo_def.exp; maximum := Rmax;
     sum := real_sum |}.

(** The definition of the textbooks, [e^(z_i) / sum_j e^(z_j)]. *)
Definition textbook_softmax (z : list R) : list R :=
  (λ x, Rtrigo_def.exp x / real_sum (Rtrigo_def.exp <$> z))%R <$> z.

(** binary64, as numpy computes on an array of [float64]: subtraction
    and division are those of IEEE 754; [np.maximum(a, b)] is [a] when
    [a >= b] or [a] is not a number, and [b] otherwise; [np.exp] is the
    parameter [np_exp].  [sum] adds from left to right, as numpy does for
    an array of fewer than eight entries; it adds a longer array in
    blocks, with other roundings. *)
Definition binary64 (np_exp : float → float) : Arith float :=
  {| sub := PrimFloat.sub; div := PrimFloat.div; exp := np_exp;
     maximum := λ a b, if PrimFloat.leb b a || PrimFloat.is_nan a then a else b;
     sum := foldl PrimFloat.add 0%float |}.

End Softmax.

(** ** gen_05_gradient_descent.py

    The arithmetic is a parameter: the operations of the numbers that
    the functions are called with.  Two of them can raise: [x ** n], on
    a Python [float], raises [OverflowError] when the result is out of
    range, and [a / b] raises [ZeroDivisionError] when [b] is zero.  A
    function that evaluates them returns [None] when one raises. *)

Module GradientDescent.

Class Arith (F : Type) := {
  add : F → F → F;
  sub : F → F → F;
  mul : F → F → F;
  div : F → F → option F;
  pow : F → nat → option F;
  sin : F → F;    (* np.sin *)
  cos : F → F;    (* np.cos *)
  lit : Q → F     (* a numeric literal of the source *)
}.

Declare Scope num_scope.
Delimit Scope num_scope with num.
Infix "+" := add : num_scope.
Infix "-" := sub : num_scope.
Infix "*" := mul : num_scope.

Section simulation.
Context {F : Type} {arith : Arith F}.

(** [loss_fn(x, y)] *)
Definition loss_fn (x y : F) : option F :=
  x2 ← pow x 2;
  y2 ← pow y 2;
  Some (lit 0.6 * x2 + lit 0.9 * y2 + lit 0.3 * x * y
        + lit 0.15 * sin (lit 2 * x) * cos (lit 2 * y))%num.

(** [grad_fn(x, y)] *)
Definition grad_fn (x y : F) : option (F * F) :=
  let h := lit 1e-5 in
  a ← loss_fn (x + h)%num y;
  b ← loss_fn (x - h)%num y;
  dfdx ← div (a - b)%num (lit 2 * h)%num;
  c ← loss_fn x (y + h)%num;
  d ← loss_fn x (y - h)%num;
  dfdy ← div (c - d)%num (lit 2 * h)%num;
  Some (dfdx, dfdy).

(** The body of the loop: from the current point to the point that is
    appended to [path]. *)
Definition descend (lr : F) (x y : F) : option (F * F * F) :=
  g ← grad_fn x y;
  let x' := (x - lr * g.1)%num in
  let y' := (y - lr * g.2)%num in
  l ← loss_fn x' y';
  Some (x', y', l).

(** [for _ in range(k): ...], carrying [x], [y] and [path]. *)
Fixpoint iterate (lr : F) (k : nat) (x y : F) (path : list (F * F * F))
  : option (list (F * F * F)) :=
  match k with
  | 0 => Some path
  | S k' =>
      p ← descend lr x y;
      iterate lr k' p.1.1 p.1.2 (path ++ [p])
  end.

(** [simulate_gradient_descent(x0, y0, lr, n_steps)]; [range(n_steps)] is
    empty when [n_steps] is negative. *)
Definition simulate_gradient_descent (x0 y0 lr : F) (n_steps : Z)
  : option (list (F * F * F)) :=
  l0 ← loss_fn x0 y0;
  iterate lr (Z.to_nat n_steps) x0 y0 [(x0, y0, l0)].

(** Vocabulary for the specification: a trajectory in which every point
    follows its predecessor and carries its own loss. *)
Definition well_formed (lr : F) (path : list (F * F * F)) : Prop :=
  (∀ k p q, path !! k = Some p → path !! S k = Some q →
            descend lr p.1.1 p.1.2 = Some q) ∧
  (∀ k p, path !! k = Some p → loss_fn p.1.1 p.1.2 = Some p.2).

End simulation.

(** The real numbers: nothing overflows, and a quotient is defined when
    the divisor is not zero. *)
Definition reals : Arith R := {|
  add := Rplus; sub := Rminus; mul := Rmult;
  div := λ a b, if Req_dec_T b 0 then None else Some (a / b)%R;
  pow := λ x n, Some (Rpow_def.pow x n);
  sin := Rtrigo_def.sin; cos := Rtrigo_def.cos;
  lit := Q2R
|}.

(** The numbers of the script: [main] passes Python [float]s, and
    [np.sin] and [np.cos] return [numpy.float64], which stays when it
    meets a Python [float].  Both are binary64. *)
Inductive number :=
| PyFloat (x : float)
| NpFloat (x : float).

Definition value (a : number) : float :=
  match a with PyFloat x | NpFloat x => x end.

Definition binary (op : float → float → float) (a b : number) : number :=
  match a, b with
  | PyFloat x, PyFloat y => PyFloat (op x y)
  | _, _ => NpFloat (op (value a) (value b))
  end.

(** Python and numpy, with the functions of the C library as parameters:
    [libm_pow] is [pow], [np_sin] and [np_cos] are numpy's.  Python
    raises [OverflowError] when [pow] of a finite number is infinite, and
    [ZeroDivisionError] when a [float] is divided by zero; numpy returns
    the IEEE 754 result, with a warning.  A literal is the binary64
    nearest to it. *)
Definition python_numbers (libm_pow : float → float → float)
    (np_sin np_cos : float → float) : Arith number := {|
  add := binary PrimFloat.add;
  sub := binary PrimFloat.sub;
  mul := binary PrimFloat.mul;
  div := λ a b,
    match a, b with
    | PyFloat x, PyFloat y =>
        if PrimFloat.is_zero y then None else Some (PyFloat (x / y))
    | _, _ => Some (NpFloat (value a / value b))
    end;
  pow := λ a n,
    let exponent := PrimFloat.of_uint63 (Uint63.of_Z (Z.of_nat n)) in
    match a with
    | PyFloat x =>
        let r := libm_pow x exponent in
        if PrimFloat.is_finite x && PrimFloat.is_infinity r then None
        else Some (PyFloat r)
    | NpFloat x => Some (NpFloat (libm_pow x exponent))
    end;
  sin := λ a, NpFloat (np_sin (value a));
  cos := λ a, NpFloat (np_cos (value a));
  lit := λ q, PyFloat (PrimFloat.of_uint63 (Uint63.of_Z (Qnum q))
                       / PrimFloat.of_uint63 (Uint63.of_Z (Zpos (Qden q))))
|}.

End GradientDescent.

(** * Facts *)

(** ** Rewired-edge detection *)

Section small_world.
Import NXOrdered SmallWorld.

(** The graphs that [nx.Graph()], [add_node] and [add_edge] build are
    well formed. *)
Lemma empty_graph_well_formed : well_formed empty_graph.
Proof. split; constructor. Qed.

Lemma add_node_well_formed (G : Graph) n : well_formed G → well_formed (add_node G n).
Proof.
  intros [Hnodes Hnbrs]. unfold add_node. case_bool_decide as Hin; [done|]. split.
  - unfold nodes in *. rewrite fmap_app. simpl.
    apply NoDup_app. split; [done|]. split; [|apply NoDup_singleton].
    intros x Hx ->%list_elem_of_singleton. done.
  - apply Forall_app. split; [done|]. repeat constructor.
Qed.

Lemma set_adj_well_formed (G : Graph) u v : well_formed G → well_formed (set_adj G u v).
Proof.
  intros [Hnodes Hnbrs]. unfold set_adj. split.
  - unfold nodes in *. rewrite <-list_fmap_compose.
    erewrite list_fmap_ext; [exact Hnodes|]. intros _ [n nbrs] _. simpl.
    by case_bool_decide.
  - apply Forall_fmap. eapply Forall_impl; [exact Hnbrs|].
    intros [n nbrs] Hnd. simpl in *. case_bool_decide; [|done]. simpl.
    case_bool_decide as Hv; [done|].
    apply NoDup_app. split; [done|]. split; [|apply NoDup_singleton].
    intros x Hx ->%list_elem_of_singleton. done.
Qed.

Lemma add_edge_well_formed (G : Graph) u v : well_formed G → well_formed (add_edge G u v).
Proof.
  intros Hwf. unfold add_edge.
  by do 2 apply set_adj_well_formed; do 2 apply add_node_well_formed.
Qed.

Lemma edges_seen_node seen (G : Graph) u v :
  (u, v) ∈ edges_seen seen G → u ∈ nodes G ∧ v ∉ seen.
Proof.
  revert seen. induction G as [|[n nbrs] rest IH]; intros seen; simpl.
  - by intros ?%elem_of_nil.
  - rewrite elem_of_app, list_elem_of_fmap. intros [(nbr & [= -> ->] & Hin)|Hin].
    + apply list_elem_of_filter in Hin as [? _]. split; [left|done].
    + apply IH in Hin as [? Hseen]. split; [by right|].
      intros ?. apply Hseen. by right.
Qed.

Lemma NoDup_edges_seen seen (G : Graph) : well_formed G → NoDup (edges_seen seen G).
Proof.
  unfold well_formed, nodes. revert seen.
  induction G as [|[n nbrs] rest IH]; intros seen [Hnodes Hnbrs]; simpl.
  { constructor. }
  rewrite fmap_cons in Hnodes. apply NoDup_cons in Hnodes as [Hn Hnodes].
  apply Forall_cons in Hnbrs as [Hnbr Hnbrs]. simpl in *.
  apply NoDup_app. split; [|split].
  - apply NoDup_fmap_2; [by intros ?? [= ->]|]. by apply NoDup_filter.
  - intros [u v] Hin Hin'. apply list_elem_of_fmap in Hin as (nbr & [= -> ->] & _).
    by apply edges_seen_node in Hin' as [? _].
  - by apply IH.
Qed.

(** An edge is reported in one direction only. *)
Lemma edges_seen_one_direction seen (G : Graph) u v :
  NoDup (nodes G) → u ≠ v → (u, v) ∈ edges_seen seen G → (v, u) ∉ edges_seen seen G.
Proof.
  unfold nodes. revert seen.
  induction G as [|[n nbrs] rest IH]; intros seen Hnodes Hne; simpl.
  { by intros ?%elem_of_nil. }
  rewrite fmap_cons in Hnodes. apply NoDup_cons in Hnodes as [Hn Hnodes].
  simpl in Hn.
  rewrite !elem_of_app, !list_elem_of_fmap.
  intros [(nbr & [= -> ->] & Hin)|Hin] [(nbr' & [= <- Heq] & Hin')|Hin'].
  - done.
  - apply edges_seen_node in Hin' as [_ Hseen]. apply Hseen. by left.
  - subst nbr'. apply edges_seen_node in Hin as [_ Hseen]. apply Hseen. by left.
  - by eapply IH.
Qed.

Lemma filter_not_Forall {A} (P : A → Prop) `{∀ x, Decision (P x)} (l : list A) :
  Forall P l → filter (λ x, ¬ P x) l = [].
Proof.
  induction 1 as [|x l Hx _ IH]; [done|].
  rewrite filter_cons. case_decide; [tauto | exact IH].
Qed.

(** The two lists are the two halves of a filter. *)
Local Abbreviation is_regular G_regular :=
  (λ e, frozenset e ∈ (list_to_set (frozenset <$> edges G_regular) : gset (gset nat))).

Lemma detect_rewired_edges_filter G_regular G_rewired :
  detect_rewired_edges G_regular G_rewired =
  (filter (is_regular G_regular) (edges G_rewired),
   filter (λ e, ¬ is_regular G_regular e) (edges G_rewired)).
Proof.
  unfold detect_rewired_edges.
  cut (∀ es kept rewired,
    foldl (λ '(kept, rewired) e,
       if bool_decide (frozenset e ∈ (list_to_set (frozenset <$> edges G_regular) : gset (gset nat)))
       then (kept ++ [e], rewired) else (kept, rewired ++ [e])) (kept, rewired) es
    = (kept ++ filter (is_regular G_regular) es,
       rewired ++ filter (λ e, ¬ is_regular G_regular e) es)).
  { intros Hgen. apply Hgen. }
  induction es as [|e es IH]; intros kept rewired; simpl.
  - by rewrite !app_nil_r.
  - rewrite !filter_cons. case_bool_decide.
    + rewrite IH. rewrite decide_True by done. rewrite decide_False by tauto.
      by rewrite <-app_assoc.
    + rewrite IH. rewrite decide_False by done. rewrite decide_True by done.
      by rewrite <-app_assoc.
Qed.

Lemma frozenset_eq a b u v :
  frozenset (a, b) = frozenset (u, v) ↔ (a = u ∧ b = v) ∨ (a = v ∧ b = u).
Proof.
  unfold frozenset; simpl. split.
  - intros Heq.
    pose proof (proj1 (set_eq _ _) Heq a) as Ha.
    pose proof (proj1 (set_eq _ _) Heq b) as Hb.
    pose proof (proj1 (set_eq _ _) Heq u) as Hu.
    pose proof (proj1 (set_eq _ _) Heq v) as Hv.
    rewrite !elem_of_union, !elem_of_singleton in Ha, Hb, Hu, Hv.
    destruct (proj1 Ha (or_introl eq_refl)) as [Hau|Hav];
      destruct (proj1 Hb (or_intror eq_refl)) as [Hbu|Hbv];
      destruct (proj2 Hu (or_introl eq_refl)) as [Hua|Hub];
      destruct (proj2 Hv (or_intror eq_refl)) as [Hva|Hvb];
      clear Ha Hb Hu Hv Heq; subst; auto.
  - intros [[-> ->]|[-> ->]]; [done|]. apply set_eq. intros x.
    rewrite !elem_of_union, !elem_of_singleton. tauto.
Qed.

Lemma is_regular_spec G_regular u v :
  is_regular G_regular (u, v) ↔
  (u, v) ∈ edges G_regular ∨ (v, u) ∈ edges G_regular.
Proof.
  rewrite elem_of_list_to_set, list_elem_of_fmap. split.
  - intros ([a b] & Heq & Hin). symmetry in Heq.
    apply frozenset_eq in Heq as [[-> ->]|[-> ->]]; auto.
  - intros [Hin|Hin]; [by exists (u, v)|]. exists (v, u). split; [|done].
    apply frozenset_eq. auto.
Qed.

(** Claim C6.  [detect_rewired_edges] splits the edges of [G_rewired]
    into two lists.  Each list keeps the order of [G_rewired.edges()],
    together they are a rearrangement of it, and no edge is in both; as
    [G_rewired.edges()] lists no edge twice, in either direction, every
    edge is in exactly one of them.  [kept] holds exactly the edges that
    [G_regular.edges()] lists in the same or in the opposite direction,
    [rewired] holds the others; and comparing a graph with itself leaves
    [rewired] empty. *)
Theorem detect_rewired_edges_partition (G_regular G_rewired : Graph) :
  let kept := (detect_rewired_edges G_regular G_rewired).1 in
  let rewired := (detect_rewired_edges G_regular G_rewired).2 in
  kept ++ rewired ≡ₚ edges G_rewired ∧
  kept `sublist_of` edges G_rewired ∧
  rewired `sublist_of` edges G_rewired ∧
  (∀ e, e ∈ kept → e ∉ rewired) ∧
  (well_formed G_rewired →
     NoDup (kept ++ rewired) ∧
     ∀ u v, u ≠ v → (u, v) ∈ kept ++ rewired → (v, u) ∉ kept ++ rewired) ∧
  (∀ u v, (u, v) ∈ kept ↔
     (u, v) ∈ edges G_rewired ∧
     ((u, v) ∈ edges G_regular ∨ (v, u) ∈ edges G_regular)) ∧
  (∀ u v, (u, v) ∈ rewired ↔
     (u, v) ∈ edges G_rewired ∧
     ¬ ((u, v) ∈ edges G_regular ∨ (v, u) ∈ edges G_regular)) ∧
  (detect_rewired_edges G_rewired G_rewired).2 = [].
Proof.
  intros kept rewired. subst kept rewired.
  rewrite !detect_rewired_edges_filter; simpl.
  assert (filter (is_regular G_regular) (edges G_rewired)
          ++ filter (λ e, ¬ is_regular G_regular e) (edges G_rewired)
          ≡ₚ edges G_rewired) as Hperm.
  { induction (edges G_rewired) as [|e es IH]; [done|].
    rewrite !filter_cons. repeat case_decide; try tauto.
    - simpl. by f_equiv.
    - rewrite <-Permutation_middle. by f_equiv. }
  split; [done|].
  split; [apply sublist_filter|]. split; [apply sublist_filter|].
  split.
  { intros e [H1 _]%list_elem_of_filter [H2 _]%list_elem_of_filter. exact (H2 H1). }
  split.
  { intros Hwf. split; [rewrite Hperm; by apply NoDup_edges_seen|].
    intros u v Hne. rewrite !Hperm.
    apply edges_seen_one_direction; [apply Hwf|done]. }
  split; [|split].
  - intros u v. rewrite list_elem_of_filter, (is_regular_spec G_regular u v). tauto.
  - intros u v. rewrite list_elem_of_filter, (is_regular_spec G_regular u v). tauto.
  - assert (Forall (is_regular G_rewired) (edges G_rewired)) as Hall.
    { apply Forall_forall. intros e He.
      rewrite elem_of_list_to_set. by apply list_elem_of_fmap_2. }
    by apply filter_not_Forall.
Qed.

End small_world.

(** The edge between 1 and 3 was added as [(1, 3)] to the one graph and
    as [(3, 1)] to the other: it is kept, in the direction in which the
    second graph reports it. *)
Lemma detect_rewired_edges_partition_witness :
  let G_regular :=
    NXOrdered.add_edge (NXOrdered.add_edge NXOrdered.empty_graph 1 3) 1 2 in
  let G_rewired :=
    NXOrdered.add_edge (NXOrdered.add_edge NXOrdered.empty_graph 3 1) 3 4 in
  NXOrdered.edges G_regular = [(1, 3); (1, 2)] ∧
  NXOrdered.edges G_rewired = [(3, 1); (3, 4)] ∧
  SmallWorld.detect_rewired_edges G_regular G_rewired = ([(3, 1)], [(3, 4)]) ∧
  NXOrdered.well_formed G_rewired ∧
  (3, 1) ∈ (SmallWorld.detect_rewired_edges G_regular G_rewired).1 ∧
  NoDup ((SmallWorld.detect_rewired_edges G_regular G_rewired).1 ++
         (SmallWorld.detect_rewired_edges G_regular G_rewired).2).
Proof.
  intros G_regular G_rewired.
  assert (NXOrdered.well_formed G_rewired) as Hwf.
  { split; [apply (bool_decide_unpack _); by vm_compute|].
    repeat constructor; simpl; set_solver. }
  split; [reflexivity|]. split; [reflexivity|]. split; [reflexivity|].
  split; [exact Hwf|].
  destruct (detect_rewired_edges_partition G_regular G_rewired)
    as (_ & _ & _ & _ & Hnodup & Hkept & _).
  split.
  - apply Hkept. split; [by left|]. right. by left.
  - by apply Hnodup.
Defined.

(** ** Pruefer decoding: the loop of [prufer_to_tree] *)

Section decoding.
Import NX Cayley.

Local Abbreviation count x s := (Z.of_nat (count_occ Nat.eq_dec s x)).

Lemma init_degree_lookup len : ∀ start x,
  (list_to_map ((λ i, (i, 1%Z)) <$> seq start len) : gmap nat Z) !! x
  = if decide (start ≤ x < start + len) then Some 1%Z else None.
Proof.
  induction len as [|len IH]; intros start x; simpl.
  - rewrite lookup_empty. case_decide; [lia|done].
  - destruct (decide (start = x)) as [->|Hne].
    + rewrite lookup_insert_eq. case_decide; [done|lia].
    + rewrite lookup_insert_ne by done. rewrite IH.
      repeat case_decide; try done; lia.
Qed.

Lemma count_degrees_lookup s : ∀ d0,
  (∀ x, x ∈ s → is_Some (d0 !! x)) →
  ∃ d, count_degrees s d0 = Some d ∧
       ∀ x, d !! x = (λ k, k + count x s)%Z <$> d0 !! x.
Proof.
  induction s as [|v s IH]; intros d0 Hkeys.
  - exists d0. split; [done|]. intros x. simpl.
    destruct (d0 !! x); simpl; [|done]. f_equal. lia.
  - destruct (Hkeys v) as [k Hk]; [set_solver|].
    destruct (IH (<[v := (k + 1)%Z]> d0)) as (d & Hd & Hlook).
    { intros x Hx. destruct (decide (v = x)) as [->|].
      - rewrite lookup_insert_eq. eauto.
      - rewrite lookup_insert_ne by done. apply Hkeys. set_solver. }
    exists d. split.
    + simpl. unfold bump. rewrite Hk. simpl. exact Hd.
    + intros x. rewrite Hlook. destruct (decide (v = x)) as [->|Hne].
      * rewrite lookup_insert_eq, Hk, count_occ_cons_eq by done. simpl.
        f_equal. lia.
      * by rewrite lookup_insert_ne, count_occ_cons_neq by done.
Qed.

Lemma elem_of_labels n x : x ∈ labels n ↔ 1 ≤ x ≤ n.
Proof. unfold labels. rewrite elem_of_list_to_set, elem_of_seq. lia. Qed.

Lemma size_labels n : size (labels n) = n.
Proof.
  unfold labels. rewrite size_list_to_set by apply NoDup_seq. apply length_seq.
Qed.

Lemma loop_inv_init n s :
  length s + 2 = n → Forall (λ x, 1 ≤ x ≤ n) s →
  ∃ d, count_degrees s (init_degree n) = Some d ∧ loop_inv n d (labels n) s.
Proof.
  intros Hlen Hs. rewrite Forall_forall in Hs.
  destruct (count_degrees_lookup s (init_degree n)) as (d & Hd & Hlook).
  { intros x Hx. unfold init_degree. rewrite init_degree_lookup.
    apply Hs in Hx. case_decide; [eauto|lia]. }
  exists d. split; [done|]. split; [|split; [|split]].
  - intros x. by rewrite elem_of_labels.
  - intros x Hx. rewrite Hlook. unfold init_degree. rewrite init_degree_lookup.
    rewrite decide_True by lia. simpl. rewrite decide_True by (by apply elem_of_labels).
    done.
  - intros x Hx. apply elem_of_labels. by apply Hs.
  - rewrite size_labels. lia.
Qed.

Lemma size_list_to_set_le (l : list nat) : size (list_to_set l : gset nat) ≤ length l.
Proof.
  induction l as [|x l IH]; [done|].
  rewrite list_to_set_cons, size_union_alt, size_singleton. simpl.
  assert (list_to_set l ∖ {[x]} ⊆ (list_to_set l : gset nat)) as Hsub by set_solver.
  apply subseteq_size in Hsub. lia.
Qed.

(** More nodes than positions in the sequence: some node is not in it. *)
Lemma exists_not_in_sequence (V : gset nat) (s : list nat) :
  length s < size V → ∃ x, x ∈ V ∧ x ∉ s.
Proof.
  intros Hlt. destruct (set_choose_or_empty (V ∖ list_to_set s)) as [[x Hx]|Hempty].
  - exists x. set_solver.
  - assert (V ⊆ list_to_set s) as Hsub by set_solver.
    apply subseteq_size in Hsub. pose proof (size_list_to_set_le s). lia.
Qed.

Lemma find_leaf_seq len : ∀ start (d : gmap nat Z),
  (∀ x, start ≤ x < start + len → is_Some (d !! x)) →
  ∃ r, find_leaf (seq start len) d = Some r ∧
       match r with
       | Some u => start ≤ u < start + len ∧ d !! u = Some 1%Z ∧
                   ∀ w, start ≤ w < u → d !! w ≠ Some 1%Z
       | None => ∀ w, start ≤ w < start + len → d !! w ≠ Some 1%Z
       end.
Proof.
  induction len as [|len IH]; intros start d Hkeys; simpl.
  - exists None. split; [done|]. intros w Hw. lia.
  - destruct (Hkeys start) as [k Hk]; [lia|]. rewrite Hk. simpl.
    case_bool_decide as Hone.
    + subst k. exists (Some start). split; [done|]. split; [lia|]. split; [done|].
      intros w Hw. lia.
    + destruct (IH (S start) d) as (r & Hr & Hspec).
      { intros x Hx. apply Hkeys. lia. }
      exists r. split; [done|]. destruct r as [u|].
      * destruct Hspec as (Hu & Hdu & Hmin). split; [lia|]. split; [done|].
        intros w Hw. destruct (decide (w = start)) as [->|].
        -- rewrite Hk. congruence.
        -- apply Hmin. lia.
      * intros w Hw. destruct (decide (w = start)) as [->|].
        -- rewrite Hk. congruence.
        -- apply Hspec. lia.
Qed.

Lemma count_zero_iff (s : list nat) x : count x s = 0%Z ↔ x ∉ s.
Proof.
  rewrite list_elem_of_In, (count_occ_not_In Nat.eq_dec). lia.
Qed.

(** One pass of the loop removes the smallest node outside the sequence. *)
Lemma attach_step n d V v s acc :
  loop_inv n d V (v :: s) →
  ∃ d' u,
    attach n (d, acc) v = Some (d', acc ++ [(u, v)]) ∧
    u ∈ V ∧ (u ∉ v :: s) ∧ (∀ w, w ∈ V → w < u → w ∈ v :: s) ∧ v ∈ V ∧
    loop_inv n d' (V ∖ {[u]}) s.
Proof.
  intros (Hrange & Hd & Hin & Hsize).
  assert (∀ x, x ∈ V → (d !! x = Some 1%Z ↔ x ∉ v :: s)) as Hleaf.
  { intros x Hx. rewrite Hd by (by apply Hrange). rewrite decide_True by done.
    rewrite <-count_zero_iff. split; [intros Heq; apply (inj Some) in Heq; lia|intros ->; done]. }
  assert (∀ x, 1 ≤ x ≤ n → d !! x = Some 1%Z → x ∈ V) as Hlive.
  { intros x Hx. rewrite Hd by done. case_decide; [done|]. intros [= ?]. }
  destruct (find_leaf_seq n 1 d) as (r & Hr & Hspec).
  { intros x Hx. rewrite Hd by lia. eauto. }
  destruct (exists_not_in_sequence V (v :: s)) as (x0 & Hx0 & Hx0s); [lia|].
  destruct r as [u|]; last first.
  { exfalso. apply (Hspec x0); [apply Hrange in Hx0; lia|]. by apply Hleaf. }
  destruct Hspec as (Hu & Hdu & Hmin).
  assert (u ∈ V) as HuV by (apply Hlive; [lia|done]).
  assert (u ∉ v :: s) as Hus by (by apply Hleaf).
  assert (v ∈ V) as HvV by (apply Hin; set_solver).
  assert (u ≠ v) as Huv by set_solver.
  pose proof (Hd v (Hrange v HvV)) as Hdv. rewrite decide_True in Hdv by done.
  exists (<[v := (1 + count v s)%Z]> (<[u := 0%Z]> d)), u.
  split; [|split; [done|split; [done|split; [|split; [done|]]]]].
  - unfold attach. cbn [fst snd]. rewrite Hr. cbn [mbind option_bind]. unfold bump.
    rewrite Hdu. cbn [mbind option_bind].
    rewrite lookup_insert_ne by done. rewrite Hdv. cbn [mbind option_bind].
    rewrite count_occ_cons_eq by done. do 3 f_equal. lia.
  - intros w Hw Hlt. destruct (decide (w ∈ v :: s)) as [|Hnot]; [done|].
    exfalso. apply (Hmin w); [apply Hrange in Hw; lia|]. by apply Hleaf.
  - split; [|split; [|split]].
    + intros x Hx. apply Hrange. set_solver.
    + intros x Hx. destruct (decide (x = v)) as [->|Hxv].
      * rewrite lookup_insert_eq. rewrite decide_True by set_solver. done.
      * rewrite lookup_insert_ne by done. destruct (decide (x = u)) as [->|Hxu].
        -- rewrite lookup_insert_eq. rewrite decide_False by set_solver. done.
        -- rewrite lookup_insert_ne by done. rewrite Hd by done.
           rewrite count_occ_cons_neq by done.
           destruct (decide (x ∈ V)).
           ++ rewrite decide_True by set_solver. done.
           ++ rewrite decide_False by set_solver. done.
    + intros x Hx. apply elem_of_difference. split; [apply Hin; set_solver|].
      set_solver.
    + rewrite size_difference by set_solver. rewrite size_singleton.
      simpl in Hsize. lia.
Qed.

Lemma leaves_seq len : ∀ start (d : gmap nat Z),
  (∀ x, start ≤ x < start + len → is_Some (d !! x)) →
  leaves (seq start len) d
  = Some (filter (λ x, d !! x = Some 1%Z) (seq start len)).
Proof.
  induction len as [|len IH]; intros start d Hkeys; [done|].
  cbn [seq leaves]. destruct (Hkeys start) as [k Hk]; [lia|]. rewrite Hk.
  cbn [mbind option_bind]. rewrite IH by (intros x Hx; apply Hkeys; lia).
  cbn [mbind option_bind]. rewrite filter_cons, Hk.
  case_bool_decide as Hone.
  - subst k. by rewrite decide_True.
  - rewrite decide_False by congruence. done.
Qed.

Lemma StronglySorted_filter {A} (R : relation A) (P : A → Prop)
    `{∀ x, Decision (P x)} (l : list A) :
  StronglySorted R l → StronglySorted R (filter P l).
Proof.
  induction 1 as [|x l Hl IH Hx]; [constructor|].
  rewrite filter_cons. case_decide; [|done]. constructor; [done|].
  rewrite Forall_forall in Hx |- *. intros y Hy.
  apply list_elem_of_filter in Hy as [_ Hy]. by apply Hx.
Qed.

(** A sorted list of two distinct numbers. *)
Lemma filter_seq_two (P : nat → Prop) `{∀ x, Decision (P x)} len : ∀ start (V : gset nat),
  (∀ x, x ∈ V ↔ start ≤ x < start + len ∧ P x) → size V = 2 →
  ∃ a b, filter P (seq start len) = [a; b] ∧ a < b ∧ V = {[a; b]}.
Proof.
  intros start V HV Hsize.
  assert (filter P (seq start len) ≡ₚ elements V) as Hperm.
  { apply NoDup_Permutation.
    - apply NoDup_filter, NoDup_seq.
    - apply NoDup_elements.
    - intros x. rewrite elem_of_elements, list_elem_of_filter, elem_of_seq, HV. tauto. }
  assert (StronglySorted lt (filter P (seq start len))) as Hsorted.
  { apply StronglySorted_filter. clear. revert start.
    induction len as [|len IH]; intros start; simpl; constructor; [apply IH|].
    apply Forall_forall. intros x Hx. apply elem_of_seq in Hx. lia. }
  assert (length (filter P (seq start len)) = 2) as Hlen.
  { rewrite Hperm. by rewrite <-Hsize. }
  destruct (filter P (seq start len)) as [|a [|b [|c l]]]; simplify_eq/=.
  exists a, b. split; [done|]. split.
  - apply StronglySorted_inv in Hsorted as [_ Hall].
    by apply Forall_cons in Hall as [? _].
  - apply set_eq. intros x. rewrite <-elem_of_elements, <-Hperm. set_solver.
Qed.

(** The loop, then the last edge: the edges decode the sequence. *)
Lemma attach_all_decoded n s : ∀ d V acc,
  loop_inv n d V s →
  ∃ d' es a b,
    attach_all n (d, acc) s = Some (d', acc ++ es) ∧
    leaves (seq 1 n) d' = Some [a; b] ∧
    decoded V s (es ++ [(a, b)]).
Proof.
  induction s as [|v s IH]; intros d V acc Hinv.
  - destruct Hinv as (Hrange & Hd & _ & Hsize). simpl in Hsize.
    destruct (filter_seq_two (λ x, d !! x = Some 1%Z) n 1 V) as (a & b & Hf & Hab & ->).
    { intros x. split.
      - intros Hx. pose proof (Hrange x Hx). split; [lia|].
        rewrite Hd by done. by rewrite decide_True.
      - intros [Hx Hdx]. rewrite Hd in Hdx by lia. by case_decide. }
    { done. }
    exists d, [], a, b. split; [by rewrite app_nil_r|]. split.
    + rewrite leaves_seq; [by rewrite Hf|]. intros x Hx. rewrite Hd by lia. eauto.
    + by constructor.
  - destruct (attach_step n d V v s acc Hinv)
      as (d1 & u & Hstep & HuV & Hus & Hmin & HvV & Hinv1).
    destruct (IH d1 (V ∖ {[u]}) (acc ++ [(u, v)]) Hinv1) as (d' & es & a & b & Hall & Hl & Hdec).
    exists d', ((u, v) :: es), a, b. split; [|split; [done|]].
    + cbn [attach_all]. rewrite Hstep. cbn [mbind option_bind].
      rewrite Hall. by rewrite <-app_assoc.
    + by constructor.
Qed.

(** [prufer_to_tree] returns, and what it returns decodes the sequence. *)
Lemma prufer_to_tree_decoded n s :
  length s + 2 = n → Forall (λ x, 1 ≤ x ≤ n) s →
  ∃ es, prufer_to_tree s n = Some es ∧ decoded (labels n) s es.
Proof.
  intros Hlen Hs.
  destruct (loop_inv_init n s Hlen Hs) as (d & Hd & Hinv).
  destruct (attach_all_decoded n s d (labels n) [] Hinv) as (d' & es & a & b & Hall & Hl & Hdec).
  exists (es ++ [(a, b)]). split; [|done].
  unfold prufer_to_tree. rewrite Hd. cbn [mbind option_bind]. rewrite Hall.
  cbn [mbind option_bind fst snd]. rewrite Hl. done.
Qed.

End decoding.

(** ** Pruefer decoding: what is decoded is a tree *)

Section decoded_trees.
Import NX Cayley.

Lemma adj_cons u v es x y :
  adj ((u, v) :: es) x y ↔ (x = u ∧ y = v) ∨ (x = v ∧ y = u) ∨ adj es x y.
Proof.
  unfold adj. rewrite !elem_of_cons. split.
  - intros [[[= -> ->]|?]|[[= -> ->]|?]]; tauto.
  - intros [[-> ->]|[[-> ->]|[?|?]]]; tauto.
Qed.

Lemma adj_sym es x y : adj es x y → adj es y x.
Proof. unfold adj. tauto. Qed.

Lemma decoded_size V s es : decoded V s es → size V = length s + 2.
Proof.
  induction 1 as [a b Hab|V u v s es Hu Hus Hmin Hv Hdec IH]; cbn [length].
  - rewrite size_union by (apply disjoint_singleton_l, not_elem_of_singleton; lia).
    by rewrite !size_singleton.
  - rewrite size_difference, size_singleton in IH by set_solver.
    assert (size V ≠ 0); [|lia].
    apply size_non_empty_iff. set_solver.
Qed.

Lemma decoded_length V s es : decoded V s es → length es = length s + 1.
Proof. induction 1; simpl; lia. Qed.

Lemma decoded_sequence V s es : decoded V s es → ∀ x, x ∈ s → x ∈ V.
Proof.
  induction 1 as [a b Hab|V u v s es Hu Hus Hmin Hv Hdec IH]; intros x Hx.
  - by apply elem_of_nil in Hx.
  - apply elem_of_cons in Hx as [->|Hx]; [done|]. apply IH in Hx. set_solver.
Qed.

Lemma decoded_endpoints V s es :
  decoded V s es → ∀ x y, adj es x y → x ∈ V ∧ y ∈ V ∧ x ≠ y.
Proof.
  induction 1 as [a b Hab|V u v s es Hu Hus Hmin Hv Hdec IH]; intros x y Hadj.
  - apply adj_cons in Hadj as [[-> ->]|[[-> ->]|Hadj]].
    + split; [set_solver|]. split; [set_solver|lia].
    + split; [set_solver|]. split; [set_solver|lia].
    + destruct Hadj as [Hnil | Hnil]; by apply elem_of_nil in Hnil.
  - apply adj_cons in Hadj as [[-> ->]|[[-> ->]|Hadj]].
    + split; [done|]. split; [done|]. set_solver.
    + split; [done|]. split; [done|]. set_solver.
    + apply IH in Hadj as (Hx & Hy & Hne). set_solver.
Qed.

Lemma decoded_has_neighbour V s es :
  decoded V s es → ∀ x, x ∈ V → ∃ y, adj es x y.
Proof.
  induction 1 as [a b Hab|V u v s es Hu Hus Hmin Hv Hdec IH]; intros x Hx.
  - assert (x = a ∨ x = b) as [-> | ->] by set_solver.
    + exists b. apply adj_cons. tauto.
    + exists a. apply adj_cons. tauto.
  - destruct (decide (x = u)) as [->|Hne].
    + exists v. apply adj_cons. tauto.
    + destruct (IH x) as [y Hy]; [set_solver|]. exists y. apply adj_cons. tauto.
Qed.

Lemma decoded_connected V s es :
  decoded V s es → ∀ x y, x ∈ V → y ∈ V → rtc (adj es) x y.
Proof.
  induction 1 as [a b Hab|V u v s es Hu Hus Hmin Hv Hdec IH]; intros x y Hx Hy.
  - assert (adj [(a, b)] a b) as Hab' by (apply adj_cons; tauto).
    assert (x = a ∨ x = b) as [-> | ->] by set_solver;
      (assert (y = a ∨ y = b) as [-> | ->] by set_solver);
      try done; apply rtc_once; [done|by apply adj_sym].
  - assert (∀ x y, rtc (adj es) x y → rtc (adj ((u, v) :: es)) x y) as Hsub.
    { intros x' y' Hr. eapply rtc_subrel; [|exact Hr].
      intros ???. apply adj_cons. tauto. }
    assert (adj ((u, v) :: es) u v) as Huv by (apply adj_cons; tauto).
    assert (u ≠ v) as Hne by set_solver.
    destruct (decide (x = u)) as [->|Hxu], (decide (y = u)) as [->|Hyu].
    + done.
    + eapply rtc_l; [exact Huv|]. apply Hsub, IH; set_solver.
    + eapply rtc_r; [|apply adj_sym, Huv]. apply Hsub, IH; set_solver.
    + apply Hsub, IH; set_solver.
Qed.

(** A leaf of the decoded tree is a node that does not occur in the
    sequence; a node that occurs in it has two neighbours at least. *)
Lemma decoded_leaf_unique V s es :
  decoded V s es → ∀ x y z, x ∉ s → adj es x y → adj es x z → y = z.
Proof.
  induction 1 as [a b Hab|V u v s es Hu Hus Hmin Hv Hdec IH]; intros x y z Hx Hy Hz.
  - assert (a ≠ b) by lia.
    rewrite adj_cons in Hy, Hz. unfold adj in Hy, Hz. set_solver.
  - pose proof (decoded_endpoints _ _ _ Hdec) as Hends.
    apply adj_cons in Hy, Hz.
    destruct Hy as [[-> ->]|[[-> ->]|Hy]].
    + destruct Hz as [[_ ->]|[[-> ->]|Hz]]; [done|done|].
      apply Hends in Hz. set_solver.
    + set_solver.
    + destruct Hz as [[-> ->]|[[-> ->]|Hz]].
      * apply Hends in Hy. set_solver.
      * set_solver.
      * eapply IH; [|done..]. set_solver.
Qed.

Lemma decoded_inner_two V s es :
  decoded V s es → ∀ x, x ∈ s → ∃ y z, y ≠ z ∧ adj es x y ∧ adj es x z.
Proof.
  induction 1 as [a b Hab|V u v s es Hu Hus Hmin Hv Hdec IH]; intros x Hx.
  - by apply elem_of_nil in Hx.
  - destruct (decide (x ∈ s)) as [Hxs|Hxs].
    + destruct (IH x Hxs) as (y & z & Hne & Hy & Hz).
      exists y, z. rewrite !adj_cons. tauto.
    + assert (x = v) as -> by set_solver.
      destruct (decoded_has_neighbour _ _ _ Hdec v) as [y Hy]; [set_solver|].
      exists u, y. rewrite !adj_cons. split; [|tauto].
      apply (decoded_endpoints _ _ _ Hdec) in Hy. set_solver.
Qed.

End decoded_trees.

Section acyclic.
Import NX Cayley.

(** A cycle passes through no node that has a single neighbour. *)
Lemma cycle_avoids_leaf (R : nat → nat → Prop) c u v :
  cycle R c → (∀ w, R u w → w = v) → (∀ w, R w u → w = v) → u ≠ v → u ∉ c.
Proof.
  intros (Hne & Hlen & Hnodup & Hstep) Hout Hin Huv Hu.
  apply list_elem_of_lookup in Hu as [i Hi].
  pose proof (lookup_lt_Some _ _ _ Hi) as Hik.
  set (k := length c) in *.
  set (j := if decide (i + 1 < k) then i + 1 else 0).
  set (p := if decide (i = 0) then k - 1 else i - 1).
  assert ((i + 1) mod k = j) as Hj.
  { unfold j. case_decide; [by apply Nat.mod_small|].
    replace (i + 1) with k by lia. apply Nat.Div0.mod_same. }
  assert ((p + 1) mod k = i) as Hp.
  { unfold p. case_decide.
    - replace (k - 1 + 1) with k by lia. subst i. apply Nat.Div0.mod_same.
    - replace (i - 1 + 1) with i by lia. by apply Nat.mod_small. }
  assert (j < k) as Hjk by (unfold j; case_decide; lia).
  assert (p < k) as Hpk by (unfold p; case_decide; lia).
  destruct (lookup_lt_is_Some_2 c j Hjk) as [y Hy].
  destruct (lookup_lt_is_Some_2 c p Hpk) as [z Hz].
  assert (y = v) as ->.
  { apply Hout. apply (Hstep i); [done|]. by rewrite Hj. }
  assert (z = v) as ->.
  { apply Hin. apply (Hstep p); [done|]. by rewrite Hp. }
  pose proof (NoDup_lookup _ _ _ _ Hnodup Hy Hz) as Hjp.
  destruct (decide (k = 1)) as [Hk1|Hk1].
  - assert (j = i) as Hji by (unfold j; case_decide; lia).
    rewrite Hji in Hy. congruence.
  - unfold j, p in Hjp. repeat case_decide; lia.
Qed.

Lemma cycle_subrel (R R' : nat → nat → Prop) c :
  (∀ x y, x ∈ c → y ∈ c → R x y → R' x y) → cycle R c → cycle R' c.
Proof.
  intros Hsub (Hne & Hlen & Hnodup & Hstep). split; [done|]. split; [done|].
  split; [done|]. intros i x y Hx Hy. apply Hsub.
  - by eapply list_elem_of_lookup_2.
  - by eapply list_elem_of_lookup_2.
  - by eapply Hstep.
Qed.

Lemma cycle_has_edge (R : nat → nat → Prop) c :
  cycle R c → ∃ x y, x ∈ c ∧ R x y.
Proof.
  intros (Hne & Hlen & Hnodup & Hstep). destruct c as [|x c]; [done|].
  assert ((0 + 1) mod length (x :: c) < length (x :: c)) as Hlt.
  { apply Nat.mod_upper_bound. simpl. lia. }
  destruct (lookup_lt_is_Some_2 _ _ Hlt) as [y Hy].
  exists x, y. split; [set_solver|]. by apply (Hstep 0).
Qed.

Lemma decoded_acyclic V s es : decoded V s es → ∀ c, ¬ cycle (adj es) c.
Proof.
  induction 1 as [a b Hab|V u v s es Hu Hus Hmin Hv Hdec IH]; intros c Hc.
  - assert (a ∉ c) as Ha.
    { apply (cycle_avoids_leaf _ _ _ b Hc); [| |lia].
      - intros w Hw. apply adj_cons in Hw. unfold adj in Hw. set_solver.
      - intros w Hw. apply adj_cons in Hw. unfold adj in Hw. set_solver. }
    assert (b ∉ c) as Hb.
    { apply (cycle_avoids_leaf _ _ _ a Hc); [| |lia].
      - intros w Hw. apply adj_cons in Hw. unfold adj in Hw. set_solver.
      - intros w Hw. apply adj_cons in Hw. unfold adj in Hw. set_solver. }
    destruct (cycle_has_edge _ _ Hc) as (x & y & Hx & Hxy).
    apply adj_cons in Hxy. unfold adj in Hxy. set_solver.
  - pose proof (decoded_endpoints _ _ _ Hdec) as Hends.
    assert (u ≠ v) as Huv by set_solver.
    assert (u ∉ c) as Huc.
    { apply (cycle_avoids_leaf _ _ _ v Hc); [| |done].
      - intros w Hw. apply adj_cons in Hw as [[_ ->]|[[-> ->]|Hw]]; [done|done|].
        apply Hends in Hw. set_solver.
      - intros w Hw. apply adj_cons in Hw as [[-> ->]|[[-> _]|Hw]]; [done|done|].
        apply Hends in Hw. set_solver. }
    apply (IH c). eapply cycle_subrel; [|exact Hc].
    intros x y Hx Hy Hxy. apply adj_cons in Hxy as [[-> ->]|[[-> ->]|Hxy]]; done.
Qed.

End acyclic.

Section nx_facts.
Import NX Cayley.

Lemma nodes_add_node (G : Graph) u : nodes (add_node G u) = {[u]} ∪ nodes G.
Proof.
  unfold nodes, add_node. destruct (G !! u) eqn:Hu.
  - apply elem_of_dom_2 in Hu. set_solver.
  - by rewrite dom_insert_L.
Qed.

Lemma neighbors_add_node (G : Graph) u x : neighbors (add_node G u) x = neighbors G x.
Proof.
  unfold neighbors, add_node. destruct (G !! u) eqn:Hu; [done|].
  destruct (decide (u = x)) as [->|Hne].
  - by rewrite lookup_insert_eq, Hu.
  - by rewrite lookup_insert_ne.
Qed.

Lemma nodes_add_edge (G : Graph) u v : nodes (add_edge G u v) = {[u; v]} ∪ nodes G.
Proof.
  unfold add_edge, nodes. rewrite !dom_insert_L.
  fold (nodes (add_node (add_node G u) v)). rewrite !nodes_add_node.
  unfold nodes. set_solver.
Qed.

Lemma neighbors_add_edge (G : Graph) u v x y :
  y ∈ neighbors (add_edge G u v) x ↔
  y ∈ neighbors G x ∨ (x = u ∧ y = v) ∨ (x = v ∧ y = u).
Proof.
  unfold add_edge.
  set (G1 := add_node (add_node G u) v).
  assert (∀ z, neighbors G1 z = neighbors G z) as HG1.
  { intros z. unfold G1. by rewrite !neighbors_add_node. }
  set (G2 := <[u := {[v]} ∪ neighbors G1 u]> G1).
  assert (∀ z, neighbors G2 z = if decide (z = u) then {[v]} ∪ neighbors G z
                                else neighbors G z) as HG2.
  { intros z. unfold G2, neighbors at 1. case_decide as Hz.
    - subst z. rewrite lookup_insert_eq. simpl. by rewrite HG1.
    - rewrite lookup_insert_ne by done. apply HG1. }
  unfold neighbors at 1. destruct (decide (x = v)) as [->|Hxv].
  - rewrite lookup_insert_eq. simpl. rewrite HG2. case_decide; set_solver.
  - rewrite lookup_insert_ne by done. fold (neighbors G2 x). rewrite HG2.
    case_decide; set_solver.
Qed.

Lemma nodes_add_nodes_from l : ∀ G : Graph,
  nodes (add_nodes_from G l) = list_to_set l ∪ nodes G.
Proof.
  induction l as [|u l IH]; intros G; simpl.
  - set_solver.
  - unfold add_nodes_from in *. simpl. rewrite IH, nodes_add_node. set_solver.
Qed.

Lemma neighbors_add_nodes_from l : ∀ (G : Graph) x,
  neighbors (add_nodes_from G l) x = neighbors G x.
Proof.
  induction l as [|u l IH]; intros G x; [done|].
  unfold add_nodes_from in *. simpl. by rewrite IH, neighbors_add_node.
Qed.

Lemma nodes_add_edges_from es : ∀ (G : Graph) x,
  x ∈ nodes (add_edges_from G es) ↔ x ∈ nodes G ∨ ∃ y, adj es x y.
Proof.
  induction es as [|[u v] es IH]; intros G x.
  - simpl. unfold adj. set_solver.
  - unfold add_edges_from in *. simpl. rewrite IH, nodes_add_edge.
    setoid_rewrite adj_cons. set_solver.
Qed.

Lemma neighbors_add_edges_from es : ∀ (G : Graph) x y,
  y ∈ neighbors (add_edges_from G es) x ↔ y ∈ neighbors G x ∨ adj es x y.
Proof.
  induction es as [|[u v] es IH]; intros G x y.
  - simpl. unfold adj. set_solver.
  - unfold add_edges_from in *. simpl. rewrite IH, neighbors_add_edge, adj_cons.
    tauto.
Qed.

Lemma neighbors_graph_of n es x y :
  y ∈ neighbors (graph_of n es) x ↔ adj es x y.
Proof.
  unfold graph_of. rewrite neighbors_add_edges_from, neighbors_add_nodes_from.
  unfold neighbors, empty_graph. rewrite lookup_empty. set_solver.
Qed.

Lemma has_edge_graph_of n es x y :
  has_edge (graph_of n es) x y = true ↔ adj es x y.
Proof.
  unfold has_edge. by rewrite bool_decide_eq_true, neighbors_graph_of.
Qed.

Lemma nodes_graph_of n es :
  (∀ x y, adj es x y → x ∈ labels n) → nodes (graph_of n es) = labels n.
Proof.
  intros Hends. apply set_eq. intros x. unfold graph_of.
  rewrite nodes_add_edges_from, nodes_add_nodes_from. unfold labels, nodes, empty_graph.
  rewrite dom_empty_L. split; [|set_solver].
  intros [Hx|[y Hy]]; [set_solver|]. by apply Hends in Hy.
Qed.

End nx_facts.

Section edge_count.
Import NX Cayley.

Lemma sum_list_fmap_with {A} (f : A → nat) (l : list A) :
  sum_list (f <$> l) = sum_list_with f l.
Proof. induction l as [|x l IH]; [done|]. rewrite fmap_cons. simpl. by f_equal. Qed.

Lemma sum_list_with_ext_in {A} (f g : A → nat) (l : list A) :
  (∀ x, x ∈ l → f x = g x) → sum_list_with f l = sum_list_with g l.
Proof.
  induction l as [|x l IH]; intros Hfg; simpl; [done|].
  rewrite Hfg, IH; [done| |]; set_solver.
Qed.

(** One summand is one more, the others are the same. *)
Lemma sum_list_with_bump (f g : nat → nat) (l : list nat) v :
  NoDup l → v ∈ l → (∀ x, x ∈ l → x ≠ v → f x = g x) → f v = g v + 1 →
  sum_list_with f l = sum_list_with g l + 1.
Proof.
  intros Hnd Hv Hfg Hfv. induction Hnd as [|x l Hx Hnd IH]; simpl.
  - by apply elem_of_nil in Hv.
  - destruct (decide (x = v)) as [->|Hne].
    + rewrite Hfv. rewrite (sum_list_with_ext_in f g l); [lia|].
      intros y Hy. apply Hfg; set_solver.
    + rewrite (Hfg x) by set_solver. rewrite IH; [lia| |]; set_solver.
Qed.

(** The degrees of a decoded tree add up to twice the number of edges. *)
Lemma decoded_degree_sum V s es :
  decoded V s es →
  ∀ N : nat → gset nat, (∀ x y, y ∈ N x ↔ adj es x y) →
  sum_list_with (λ x, size (N x)) (elements V) = 2 * length es.
Proof.
  induction 1 as [a b Hab|V u v s es Hu Hus Hmin Hv Hdec IH]; intros N HN.
  - assert (N a = {[b]}) as Ha.
    { apply set_eq. intros y. rewrite HN, adj_cons. unfold adj. set_solver by lia. }
    assert (N b = {[a]}) as Hb.
    { apply set_eq. intros y. rewrite HN, adj_cons. unfold adj. set_solver by lia. }
    rewrite elements_disj_union by (apply disjoint_singleton_l, not_elem_of_singleton; lia).
    rewrite !elements_singleton. simpl. rewrite Ha, Hb, !size_singleton. done.
  - pose proof (decoded_endpoints _ _ _ Hdec) as Hends.
    assert (u ≠ v) as Huv by set_solver.
    set (N0 := λ x, if decide (x = u) then (∅ : gset nat)
                    else if decide (x = v) then N v ∖ {[u]} else N x).
    assert (∀ x y, y ∈ N0 x ↔ adj es x y) as HN0.
    { intros x y. unfold N0. repeat case_decide; subst.
      - split; [set_solver|]. intros Hadj. apply Hends in Hadj. set_solver.
      - rewrite elem_of_difference, HN, adj_cons. split.
        + intros [[[? ?]|[[_ ->]|?]] Hyu]; [done|set_solver|done].
        + intros Hadj. split; [tauto|]. apply Hends in Hadj. set_solver.
      - rewrite HN, adj_cons. split; [|tauto].
        intros [[? ?]|[[? ?]|?]]; done. }
    specialize (IH N0 HN0).
    assert (elements V ≡ₚ u :: elements (V ∖ {[u]})) as Hperm.
    { assert (V = {[u]} ∪ V ∖ {[u]}) as HV.
      { apply set_eq. intros x. destruct (decide (x = u)); set_solver. }
      rewrite HV at 1. apply elements_union_singleton. set_solver. }
    rewrite Hperm. cbn [sum_list_with length].
    assert (N u = {[v]}) as HNu.
    { apply set_eq. intros y. rewrite HN, adj_cons, elem_of_singleton. split.
      - intros [[_ ->]|[[-> ->]|Hadj]]; [done|done|].
        apply Hends in Hadj. set_solver.
      - intros ->. tauto. }
    rewrite HNu, size_singleton.
    rewrite (sum_list_with_bump _ (λ x, size (N0 x)) _ v).
    + rewrite IH. lia.
    + apply NoDup_elements.
    + apply elem_of_elements. set_solver.
    + intros x Hx Hxv. apply elem_of_elements in Hx. unfold N0.
      rewrite decide_False by set_solver. by rewrite decide_False.
    + unfold N0. rewrite decide_False by done. rewrite decide_True by done.
      assert (N v = {[u]} ∪ N v ∖ {[u]}) as HNv.
      { apply set_eq. intros y. destruct (decide (y = u)) as [->|]; [|set_solver].
        split; [set_solver|]. intros _. apply HN, adj_cons. tauto. }
      rewrite HNv at 1. rewrite size_union by set_solver. rewrite size_singleton. lia.
Qed.

Lemma decoded_range V s es :
  decoded V s es → ∀ x y, adj es x y → x ∈ V.
Proof. intros Hdec x y Hadj. by apply (decoded_endpoints _ _ _ Hdec) in Hadj as [? _]. Qed.

(** The graph built from a decoded sequence is a tree on [1, ..., n]. *)
Lemma decoded_is_tree n s es :
  decoded (labels n) s es →
  nodes (graph_of n es) = labels n ∧
  number_of_edges (graph_of n es) = n - 1 ∧
  is_tree (graph_of n es).
Proof.
  intros Hdec.
  pose proof (nodes_graph_of n es (decoded_range _ _ _ Hdec)) as Hnodes.
  pose proof (decoded_size _ _ _ Hdec) as Hsize. rewrite size_labels in Hsize.
  pose proof (decoded_length _ _ _ Hdec) as Hlen.
  assert (number_of_edges (graph_of n es) = length es) as Hedges.
  { unfold number_of_edges. rewrite sum_list_fmap_with, Hnodes.
    rewrite (sum_list_with_ext_in _ (λ x, size (neighbors (graph_of n es) x))).
    - rewrite (decoded_degree_sum _ _ _ Hdec).
      + by rewrite Nat.mul_comm, Nat.div_mul.
      + intros x y. apply neighbors_graph_of.
    - intros x _. unfold degree.
      destruct (has_edge (graph_of n es) x x) eqn:Hloop; [|lia].
      apply has_edge_graph_of in Hloop.
      apply (decoded_endpoints _ _ _ Hdec) in Hloop. tauto. }
  split; [done|]. split; [lia|]. split; [|split].
  - intros x y Hx Hy. rewrite Hnodes in Hx, Hy.
    eapply rtc_subrel; [|by apply (decoded_connected _ _ _ Hdec)].
    intros a b Hab. by apply (has_edge_graph_of n es a b).
  - intros c Hc. apply (decoded_acyclic _ _ _ Hdec c).
    eapply cycle_subrel; [|exact Hc]. intros a b _ _ Hab.
    by apply (has_edge_graph_of n es a b).
  - unfold number_of_nodes. rewrite Hedges, Hnodes, size_labels. lia.
Qed.

End edge_count.

(** ** Pruefer decoding: one tree per sequence *)

Section prufer_sequences.
Import NX Cayley.

Lemma leaf_ext (R R' : nat → nat → Prop) V u v :
  (∀ x y, x ∈ V → y ∈ V → (R x y ↔ R' x y)) → leaf R V u v → leaf R' V u v.
Proof.
  intros Hext (Hu & Hv & Huv & Huniq). split; [done|]. split; [done|]. split.
  - by apply Hext.
  - intros w Hw Hadj. apply Huniq; [done|]. by apply Hext.
Qed.

Lemma prufer_sequence_ext (R R' : nat → nat → Prop) V s :
  prufer_sequence R V s →
  (∀ x y, x ∈ V → y ∈ V → (R x y ↔ R' x y)) →
  prufer_sequence R' V s.
Proof.
  induction 1 as [V Hsize|V u v s Hsize Hleaf Hmin Hrest IH]; intros Hext.
  - by constructor.
  - econstructor; [done| | |].
    + by eapply leaf_ext.
    + intros w v' Hlt Hl. apply (Hmin w v' Hlt).
      eapply leaf_ext; [|exact Hl]. intros x y Hx Hy. symmetry. by apply Hext.
    + apply IH. intros x y Hx Hy. apply Hext; set_solver.
Qed.

(** A tree has one Pruefer sequence. *)
Lemma prufer_sequence_unique (R : nat → nat → Prop) V s1 :
  prufer_sequence R V s1 → ∀ s2, prufer_sequence R V s2 → s1 = s2.
Proof.
  induction 1 as [V Hsize|V u v s Hsize Hleaf Hmin Hrest IH]; intros s2 H2.
  - inversion H2; subst; [done|lia].
  - inversion H2 as [|V' u' v' s' Hsize' Hleaf' Hmin' Hrest']; subst; [lia|].
    assert (u = u') as <-.
    { destruct (Nat.lt_trichotomy u u') as [Hlt|[Heq|Hlt]]; [|done|].
      - by destruct (Hmin' _ _ Hlt Hleaf).
      - by destruct (Hmin _ _ Hlt Hleaf'). }
    assert (v' = v) as ->.
    { destruct Hleaf as (_ & _ & _ & Huniq), Hleaf' as (_ & Hv' & Huv' & _).
      by apply Huniq. }
    f_equal. by apply IH.
Qed.

(** The sequence that was decoded is the Pruefer sequence of the tree. *)
Lemma decoded_prufer_sequence V s es :
  decoded V s es → prufer_sequence (adj es) V s.
Proof.
  induction 1 as [a b Hab|V u v s es Hu Hus Hmin Hv Hdec IH].
  - constructor. rewrite size_union by (apply disjoint_singleton_l, not_elem_of_singleton; lia).
    by rewrite !size_singleton.
  - pose proof (decoded_endpoints _ _ _ Hdec) as Hends.
    assert (decoded V (v :: s) ((u, v) :: es)) as Hdec' by (by constructor).
    apply (prufer_remove _ V u v s).
    + pose proof (decoded_size _ _ _ Hdec') as Hs. simpl in Hs. lia.
    + split; [done|]. split; [done|]. split; [apply adj_cons; tauto|].
      intros w _ Hw. apply adj_cons in Hw as [[_ ->]|[[-> ->]|Hw]]; [done|done|].
      apply Hends in Hw. set_solver.
    + intros w v' Hlt (Hw & _ & _ & Huniq).
      destruct (decoded_inner_two _ _ _ Hdec' w (Hmin w Hw Hlt))
        as (y & z & Hyz & Hy & Hz).
      apply Hyz. transitivity v'.
      * apply Huniq; [|done]. by apply (decoded_endpoints _ _ _ Hdec') in Hy as (_ & ? & _).
      * symmetry. apply Huniq; [|done].
        by apply (decoded_endpoints _ _ _ Hdec') in Hz as (_ & ? & _).
    + eapply prufer_sequence_ext; [exact IH|].
      intros x y Hx Hy. rewrite adj_cons. split; [tauto|].
      intros [[-> _]|[[_ ->]|?]]; [set_solver|set_solver|done].
Qed.

(** Two sequences that decode to the same edge set are the same. *)
Lemma decoded_injective V s1 s2 es1 es2 :
  decoded V s1 es1 → decoded V s2 es2 →
  (∀ x y, adj es1 x y ↔ adj es2 x y) → s1 = s2.
Proof.
  intros H1 H2 Hsame. apply decoded_prufer_sequence in H1, H2.
  eapply prufer_sequence_unique; [exact H1|].
  eapply prufer_sequence_ext; [exact H2|]. intros x y _ _. symmetry. apply Hsame.
Qed.

End prufer_sequences.

Section product_facts.
Import NX Cayley.
Context {A : Type}.

Lemma length_product (pool : list A) k : length (product pool k) = length pool ^ k.
Proof.
  induction k as [|k IH]; [done|]. cbn [product].
  assert (∀ l : list A, length (l ≫= λ x, (x ::.) <$> product pool k)
                        = length l * length pool ^ k) as Hbind.
  { induction l as [|x l IHl]; [done|].
    rewrite bind_cons, length_app, length_fmap, IHl, IH. simpl. lia. }
  rewrite Hbind. simpl. lia.
Qed.

Lemma elem_of_product (pool : list A) k s :
  s ∈ product pool k ↔ length s = k ∧ Forall (λ x, x ∈ pool) s.
Proof.
  revert s. induction k as [|k IH]; intros s; cbn [product].
  - rewrite list_elem_of_singleton. split.
    + intros ->. split; [done|constructor].
    + intros [Hlen _]. by apply nil_length_inv.
  - rewrite list_elem_of_bind. split.
    + intros (x & Hs & Hx). apply list_elem_of_fmap in Hs as (s' & -> & Hs').
      apply IH in Hs' as [Hlen Hall]. split; [simpl; lia|by constructor].
    + intros [Hlen Hall]. destruct s as [|x s]; [done|].
      apply Forall_cons in Hall as [Hx Hall]. exists x. split; [|done].
      apply list_elem_of_fmap. exists s. split; [done|]. apply IH.
      split; [simpl in Hlen; lia|done].
Qed.

Lemma NoDup_product (pool : list A) k : NoDup pool → NoDup (product pool k).
Proof.
  intros Hpool. induction k as [|k IH]; cbn [product]; [apply NoDup_singleton|].
  apply NoDup_bind; [| |done].
  - intros x1 x2 s _ _ H1 H2.
    apply list_elem_of_fmap in H1 as (s1 & -> & _).
    apply list_elem_of_fmap in H2 as (s2 & [= -> _] & _). done.
  - intros x _. apply NoDup_fmap; [|done]. by intros ?? [= ->].
Qed.

End product_facts.

Section all_trees.
Import NX Cayley.

Lemma all_labeled_trees_mapM n :
  2 ≤ n → all_labeled_trees n = mapM (decode_graph n) (product (seq 1 n) (n - 2)).
Proof.
  intros Hn. destruct n as [|[|[|n]]]; [lia|lia| |done].
  by vm_compute.
Qed.

Lemma decode_graph_returns n s :
  2 ≤ n → s ∈ product (seq 1 n) (n - 2) →
  ∃ es, prufer_to_tree s n = Some es ∧ decode_graph n s = Some (graph_of n es) ∧
        decoded (labels n) s es.
Proof.
  intros Hn Hs. apply elem_of_product in Hs as [Hlen Hall].
  destruct (prufer_to_tree_decoded n s) as (es & Hes & Hdec); [lia| |].
  { eapply Forall_impl; [exact Hall|]. intros x Hx. apply elem_of_seq in Hx. lia. }
  exists es. split; [done|]. split; [|done]. unfold decode_graph. by rewrite Hes.
Qed.

End all_trees.

(** ** Pruefer decoding: every tree is decoded *)

Section every_tree.
Import NX Cayley.

Lemma list_least (l : list nat) : l ≠ [] → ∃ u, u ∈ l ∧ ∀ w, w ∈ l → u ≤ w.
Proof.
  induction l as [|x l IH]; [done|]. intros _. destruct l as [|y l].
  - exists x. split; [set_solver|]. intros w Hw. apply list_elem_of_singleton in Hw. lia.
  - destruct IH as (u & Hu & Hmin); [done|]. destruct (decide (x ≤ u)).
    + exists x. split; [set_solver|]. intros w Hw.
      apply elem_of_cons in Hw as [->|Hw]; [done|]. apply Hmin in Hw. lia.
    + exists u. split; [set_solver|]. intros w Hw.
      apply elem_of_cons in Hw as [->|Hw]; [lia|]. by apply Hmin.
Qed.

Lemma set_least (X : gset nat) : X ≠ ∅ → ∃ u, u ∈ X ∧ ∀ w, w ∈ X → u ≤ w.
Proof.
  intros HX. destruct (list_least (elements X)) as (u & Hu & Hmin).
  { intros Hnil. apply HX. apply elements_empty_inv in Hnil. by apply leibniz_equiv. }
  exists u. split; [by apply elem_of_elements|].
  intros w Hw. apply Hmin. by apply elem_of_elements.
Qed.

Lemma sum_list_with_at_least_two (f : nat → nat) (l : list nat) :
  (∀ x, x ∈ l → 2 ≤ f x) → 2 * length l ≤ sum_list_with f l.
Proof.
  induction l as [|x l IH]; intros Hf; simpl; [lia|].
  pose proof (Hf x ltac:(set_solver)). pose proof (IH ltac:(set_solver)). lia.
Qed.

Lemma size_two_elements (V : gset nat) :
  size V = 2 → ∃ a b, a < b ∧ V = {[a; b]}.
Proof.
  intros Hsize. unfold size, set_size in Hsize. simpl in Hsize.
  pose proof (NoDup_elements V) as Hnd.
  destruct (elements V) as [|x [|y [|z l]]] eqn:Hel; simplify_eq/=.
  assert (V = {[x; y]}) as HV.
  { apply set_eq. intros w. rewrite <-elem_of_elements, Hel. set_solver. }
  assert (x ≠ y) as Hne.
  { apply NoDup_cons in Hnd as [Hx _]. set_solver. }
  destruct (decide (x < y)).
  - exists x, y. done.
  - exists y, x. split; [lia|]. rewrite HV. set_solver.
Qed.

(** In a tree with two nodes at least, every node has a neighbour. *)
Lemma tree_on_degree_pos V N x :
  tree_on V N → 2 ≤ size V → x ∈ V → ∃ z, z ∈ V ∧ z ∈ N x.
Proof.
  intros (Hsym & Hirr & Hconn & Hsum) Hsize Hx.
  destruct (set_choose_or_empty (V ∖ {[x]})) as [[y Hy]|Hempty].
  - assert (y ∈ V ∧ y ≠ x) as [HyV Hne] by set_solver.
    pose proof (Hconn x y Hx HyV) as Hrtc.
    destruct (rtc_inv _ _ Hrtc) as [->|(z & (_ & Hz & HzN) & _)]; [done|]. eauto.
  - clear Hsym Hirr Hconn Hsum.
    assert (V ⊆ {[x]}) as Hsub.
    { intros w Hw. destruct (decide (w = x)) as [->|Hne]; [set_solver|].
      exfalso. apply (not_elem_of_empty (C:=gset nat) w), Hempty. set_solver. }
    apply subseteq_size in Hsub. rewrite size_singleton in Hsub. lia.
Qed.

(** The smallest leaf of a tree. *)
Lemma tree_on_least_leaf V N :
  tree_on V N → 2 ≤ size V →
  ∃ u v, u ∈ V ∧ N u ∩ V = {[v]} ∧ ∀ w, w ∈ V → size (N w ∩ V) = 1 → u ≤ w.
Proof.
  intros Htree Hsize. pose proof Htree as (Hsym & Hirr & Hconn & Hsum).
  set (L := filter (λ x, size (N x ∩ V) = 1) V).
  assert (L ≠ ∅) as HL.
  { intros Hempty.
    assert (2 * length (elements V) ≤ sum_list_with (λ x, size (N x ∩ V)) (elements V))
      as Htwice.
    { apply sum_list_with_at_least_two. intros x Hx. apply elem_of_elements in Hx.
      destruct (tree_on_degree_pos V N x Htree Hsize Hx) as (z & Hz & HzN).
      assert (size (N x ∩ V) ≠ 0).
      { apply size_non_empty_iff. set_solver. }
      assert (size (N x ∩ V) ≠ 1).
      { intros Hone. assert (x ∈ L) by (apply elem_of_filter; done). set_solver. }
      lia. }
    change (length (elements V)) with (size V) in Htwice. lia. }
  destruct (set_least L HL) as (u & Hu & Hmin).
  apply elem_of_filter in Hu as [Hone Hu].
  apply size_1_elem_of in Hone as [v Hv]. apply leibniz_equiv in Hv.
  exists u, v. split; [done|]. split; [done|].
  intros w Hw Hw1. apply Hmin. by apply elem_of_filter.
Qed.

End every_tree.

Section every_tree_decoded.
Import NX Cayley.

(** Removing a leaf from a tree leaves a tree. *)
Lemma tree_on_remove V N u v :
  tree_on V N → u ∈ V → N u ∩ V = {[v]} → tree_on (V ∖ {[u]}) N.
Proof.
  intros (Hsym & Hirr & Hconn & Hsum) Hu HNu.
  assert (v ∈ N u ∧ v ∈ V) as [HvN HvV].
  { assert (v ∈ N u ∩ V) as Hv by (rewrite HNu; set_solver). set_solver. }
  assert (v ≠ u) as Hvu by (intros ->; by apply (Hirr u)).
  assert (∀ x, x ∈ V → u ∈ N x → x = v) as Honly.
  { intros x Hx Hux. assert (x ∈ N u ∩ V) as Hin; [|rewrite HNu in Hin; set_solver].
    apply elem_of_intersection. split; [|done]. by apply Hsym. }
  split; [|split; [|split]].
  - intros x y Hx Hy. apply Hsym; set_solver.
  - intros x Hx. apply Hirr. set_solver.
  - set (R' := λ a b, a ∈ V ∖ {[u]} ∧ b ∈ V ∖ {[u]} ∧ b ∈ N a).
    assert (∀ x y, rtc (λ a b, a ∈ V ∧ b ∈ V ∧ b ∈ N a) x y → y ≠ u →
                   (x ≠ u → rtc R' x y) ∧ (x = u → rtc R' v y)) as Hwalk.
    { intros x y Hrtc. induction Hrtc as [x|x z y (Hx & Hz & HzN) Hrtc IH]; intros Hy.
      - split; [done|]. intros ->. done.
      - specialize (IH Hy) as [IH1 IH2]. split.
        + intros Hxu. destruct (decide (z = u)) as [->|Hzu].
          * rewrite (Honly x Hx HzN). by apply IH2.
          * eapply rtc_l; [|by apply IH1]. unfold R'. set_solver.
        + intros ->. assert (z ∈ N u ∩ V) as Hin by set_solver.
          rewrite HNu in Hin. apply elem_of_singleton in Hin. subst z. by apply IH1. }
    intros x y Hx Hy. apply Hwalk; [|set_solver..]. apply Hconn; set_solver.
  - assert (elements V ≡ₚ u :: elements (V ∖ {[u]})) as Hperm.
    { assert (V = {[u]} ∪ V ∖ {[u]}) as HV.
      { apply set_eq. intros x. destruct (decide (x = u)); set_solver. }
      rewrite HV at 1. apply elements_union_singleton. set_solver. }
    rewrite Hperm in Hsum. cbn [sum_list_with] in Hsum.
    rewrite HNu, size_singleton in Hsum.
    rewrite (sum_list_with_bump _ (λ x, size (N x ∩ (V ∖ {[u]}))) _ v) in Hsum.
    + rewrite size_difference, size_singleton by set_solver.
      assert (size V ≠ 0) by (apply size_non_empty_iff; set_solver). lia.
    + apply NoDup_elements.
    + apply elem_of_elements. set_solver.
    + intros x Hx Hxv. apply elem_of_elements in Hx. f_equal.
      apply set_eq. intros y. split; [|set_solver].
      intros Hy. apply elem_of_intersection in Hy as [HyN HyV].
      apply elem_of_intersection. split; [done|]. apply elem_of_difference.
      split; [done|]. intros Hyu. apply elem_of_singleton in Hyu. subst y.
      apply Hxv, Honly; set_solver.
    + assert (N v ∩ V = {[u]} ∪ N v ∩ (V ∖ {[u]})) as ->.
      { apply set_eq. intros y. destruct (decide (y = u)) as [->|]; [|set_solver].
        split; [set_solver|]. intros _. apply elem_of_intersection.
        split; [|done]. by apply Hsym. }
      rewrite size_union by set_solver. rewrite size_singleton. lia.
Qed.

(** Every tree is the result of decoding some sequence. *)
Lemma tree_on_decoded k : ∀ V N,
  size V = k + 2 → tree_on V N →
  ∃ s es, decoded V s es ∧ ∀ x y, x ∈ V → y ∈ V → (adj es x y ↔ y ∈ N x).
Proof.
  induction k as [|k IH]; intros V N Hsize Htree.
  - destruct (size_two_elements V Hsize) as (a & b & Hab & ->).
    pose proof Htree as (Hsym & Hirr & Hconn & _).
    destruct (tree_on_degree_pos _ N a Htree) as (z & Hz & HzN); [lia|set_solver|].
    assert (z = b) as ->.
    { assert (z ≠ a) by (intros ->; apply (Hirr a); [set_solver|done]). set_solver. }
    assert (a ∈ N b) as HaN by (apply Hsym; [set_solver..|done]).
    exists [], [(a, b)]. split; [by constructor|].
    intros x y Hx Hy. rewrite adj_cons. unfold adj.
    assert (x = a ∨ x = b) as [-> | ->] by set_solver;
      (assert (y = a ∨ y = b) as [-> | ->] by set_solver).
    + split; [intros [[]|[[]|[]]]; set_solver by lia|].
      intros Haa. destruct (Hirr a); [set_solver|done].
    + split; [done|]. tauto.
    + split; [done|]. tauto.
    + split; [intros [[]|[[]|[]]]; set_solver by lia|].
      intros Hbb. destruct (Hirr b); [set_solver|done].
  - destruct (tree_on_least_leaf V N Htree) as (u & v & Hu & HNu & Hleast); [lia|].
    pose proof Htree as (Hsym & Hirr & Hconn & _).
    assert (v ∈ N u ∧ v ∈ V) as [HvN HvV].
    { assert (v ∈ N u ∩ V) as Hv by (rewrite HNu; set_solver). set_solver. }
    assert (v ≠ u) as Hvu by (intros ->; by apply (Hirr u)).
    assert (∀ x, x ∈ V → u ∈ N x → x = v) as Honly.
    { intros x Hx Hux. assert (x ∈ N u ∩ V) as Hin; [|rewrite HNu in Hin; set_solver].
      apply elem_of_intersection. split; [|done]. by apply Hsym. }
    pose proof (tree_on_remove V N u v Htree Hu HNu) as Htree'.
    destruct (IH (V ∖ {[u]}) N) as (s & es & Hdec & Hadj); [|done|].
    { rewrite size_difference, size_singleton by set_solver. lia. }
    pose proof (decoded_endpoints _ _ _ Hdec) as Hends.
    exists (v :: s), ((u, v) :: es). split.
    + constructor; [done| | |done|done].
      * apply not_elem_of_cons. split; [done|].
        intros Hus. apply (decoded_sequence _ _ _ Hdec) in Hus. set_solver.
      * intros w Hw Hlt. destruct (decide (w = v)) as [->|Hwv]; [set_solver|].
        destruct (decide (w ∈ s)) as [|Hws]; [set_solver|]. exfalso.
        assert (size (N w ∩ V) ≠ 1) as Hnot1.
        { intros Hone. apply Hleast in Hone; [lia|done]. }
        destruct (tree_on_degree_pos V N w Htree) as (y & Hy & HyN); [lia|done|].
        assert (∃ z, z ∈ N w ∩ V ∧ z ≠ y) as (z & Hz & Hzy).
        { destruct (set_choose_or_empty (N w ∩ V ∖ {[y]})) as [[z Hz]|Hempty].
          - exists z. set_solver.
          - exfalso. apply Hnot1. clear Hleast Hadj Hends Honly.
            assert (N w ∩ V = {[y]}) as ->; [|by rewrite size_singleton].
            apply set_eq. intros z. split; [|set_solver].
            intros Hz. destruct (decide (z = y)) as [->|Hne]; [set_solver|].
            exfalso. apply (not_elem_of_empty (C:=gset nat) z), Hempty. set_solver. }
        assert (w ≠ u) by lia.
        assert (y ≠ u) by (intros ->; by apply Hwv, Honly).
        assert (z ≠ u) by (intros ->; apply Hwv, Honly; set_solver).
        apply Hzy. apply (decoded_leaf_unique _ _ _ Hdec w); [done| |].
        -- apply Hadj; set_solver.
        -- apply Hadj; set_solver.
    + intros x y Hx Hy. rewrite adj_cons.
      destruct (decide (x = u)) as [->|Hxu], (decide (y = u)) as [->|Hyu].
      * split; [|intros Huu; by destruct (Hirr u)].
        intros [[_ ->]|[[-> _]|Hadj']]; [done|done|]. apply Hends in Hadj'. set_solver.
      * split.
        -- intros [[_ ->]|[[-> ->]|Hadj']]; [done|done|]. apply Hends in Hadj'. set_solver.
        -- intros HyN. left. split; [done|].
           assert (y ∈ N u ∩ V) as Hin by set_solver. rewrite HNu in Hin. set_solver.
      * split.
        -- intros [[-> _]|[[-> _]|Hadj']]; [done|by apply Hsym|].
           apply Hends in Hadj'. set_solver.
        -- intros HuN. right. left. split; [|done]. by apply Honly.
      * rewrite <-Hadj by set_solver. split; [|tauto].
        intros [[-> _]|[[_ ->]|?]]; done.
Qed.

End every_tree_decoded.

Section every_graph.
Import NX Cayley.

Lemma decoded_nil_inv V es :
  decoded V [] es → ∃ a b, a < b ∧ V = {[a; b]} ∧ es = [(a, b)].
Proof.
  intros Hdec. remember [] as s eqn:Hs. destruct Hdec; [eauto|discriminate].
Qed.

Lemma decoded_cons_inv V v s es :
  decoded V (v :: s) es →
  ∃ u es', es = (u, v) :: es' ∧ u ∈ V ∧ (u ∉ v :: s) ∧
           (∀ w, w ∈ V → w < u → w ∈ v :: s) ∧ decoded (V ∖ {[u]}) s es'.
Proof.
  intros Hdec. remember (v :: s) as s0 eqn:Hs. destruct Hdec; [discriminate|].
  simplify_eq. eauto 10.
Qed.

Lemma decoded_deterministic V s es1 :
  decoded V s es1 → ∀ es2, decoded V s es2 → es1 = es2.
Proof.
  induction 1 as [a b Hab|V u v s es Hu Hus Hmin Hv Hdec IH]; intros es2 H2.
  - apply decoded_nil_inv in H2 as (a' & b' & Hab' & HV & ->).
    assert (a' ∈ ({[a; b]} : gset nat)) as Ha' by (rewrite HV; set_solver).
    assert (b' ∈ ({[a; b]} : gset nat)) as Hb' by (rewrite HV; set_solver).
    assert (a ∈ ({[a'; b']} : gset nat)) as Ha by (rewrite <-HV; set_solver).
    assert (b ∈ ({[a'; b']} : gset nat)) as Hb by (rewrite <-HV; set_solver).
    clear HV.
    rewrite elem_of_union, !elem_of_singleton in Ha, Hb, Ha', Hb'.
    assert (a' = a ∧ b' = b) as [-> ->] by lia. done.
  - apply decoded_cons_inv in H2 as (u' & es' & -> & Hu' & Hus' & Hmin' & Hdec').
    assert (u = u') as <-.
    { destruct (Nat.lt_trichotomy u u') as [Hlt|[Heq|Hlt]]; [|done|].
      - destruct Hus. by apply Hmin'.
      - destruct Hus'. by apply Hmin. }
    f_equal. by apply IH.
Qed.

Lemma neighbors_nodes (G : Graph) x y : y ∈ neighbors G x → x ∈ nodes G.
Proof.
  unfold neighbors, nodes. intros Hy. apply elem_of_dom.
  destruct (G !! x); [eauto|]. set_solver.
Qed.

Lemma lookup_neighbors (G : Graph) x : x ∈ nodes G → G !! x = Some (neighbors G x).
Proof.
  unfold neighbors, nodes. intros [X HX]%elem_of_dom. by rewrite HX.
Qed.

Lemma sum_list_with_le {A} (f g : A → nat) (l : list A) :
  (∀ x, f x ≤ g x) → sum_list_with f l ≤ sum_list_with g l.
Proof.
  intros Hfg. induction l as [|x l IH]; simpl; [done|]. specialize (Hfg x). lia.
Qed.

(** A tree in the sense of networkx is a tree in the sense above. *)
Lemma is_tree_tree_on (G : Graph) :
  undirected G → is_tree G → tree_on (nodes G) (neighbors G).
Proof.
  intros Hund (Hconn & Hacyc & Hcount). split; [|split; [|split]].
  - intros x y _ _. apply Hund.
  - intros x _ Hloop. apply (Hacyc [x]). split; [done|]. split; [simpl; lia|].
    split; [apply NoDup_singleton|]. intros [|i] a b Ha Hb; simplify_eq/=.
    by apply bool_decide_eq_true.
  - intros x y Hx Hy. eapply rtc_subrel; [|by apply Hconn].
    intros a b Hab. apply bool_decide_eq_true in Hab.
    split; [by eapply neighbors_nodes|]. split; [|done].
    eapply neighbors_nodes. by apply Hund.
  - unfold number_of_edges, number_of_nodes in Hcount.
    rewrite sum_list_fmap_with in Hcount.
    pose proof (sum_list_with_le (λ x, size (neighbors G x ∩ nodes G)) (degree G)
                  (elements (nodes G))) as Hle.
    set (total := sum_list_with (degree G) (elements (nodes G))) in *.
    pose proof (Nat.div_mod_eq total 2) as Hdiv.
    pose proof (Nat.mod_upper_bound total 2 ltac:(lia)) as Hmod.
    assert (sum_list_with (λ x, size (neighbors G x ∩ nodes G)) (elements (nodes G))
            ≤ total) as Hle'.
    { apply Hle. intros x. unfold degree.
      assert (neighbors G x ∩ nodes G ⊆ neighbors G x) as Hsub by set_solver.
      apply subseteq_size in Hsub. lia. }
    lia.
Qed.

(** A graph is determined by its nodes and its adjacency. *)
Lemma graph_of_decoded_eq (G : Graph) n s es :
  undirected G → nodes G = labels n → decoded (labels n) s es →
  (∀ x y, x ∈ labels n → y ∈ labels n → (adj es x y ↔ y ∈ neighbors G x)) →
  G = graph_of n es.
Proof.
  intros Hund Hnodes Hdec Hadj.
  pose proof (nodes_graph_of n es (decoded_range _ _ _ Hdec)) as Hnodes'.
  apply map_eq. intros x. destruct (decide (x ∈ labels n)) as [Hx|Hx].
  - rewrite !lookup_neighbors by congruence. f_equal.
    apply set_eq. intros y. rewrite neighbors_graph_of. split.
    + intros Hy. apply Hadj; [done| |done]. rewrite <-Hnodes.
      eapply neighbors_nodes. by apply Hund.
    + intros Hy. apply Hadj; [done| |done].
      by apply (decoded_endpoints _ _ _ Hdec) in Hy as (_ & ? & _).
  - transitivity (@None (gset nat)); [|symmetry].
    + apply not_elem_of_dom. fold (nodes G). congruence.
    + apply not_elem_of_dom. fold (nodes (graph_of n es)). congruence.
Qed.

(** Every tree on [1, ..., n] is the graph of a sequence, and of the
    sequence that is its Pruefer sequence. *)
Lemma tree_is_decoded (G : Graph) n :
  2 ≤ n → undirected G → nodes G = labels n → is_tree G →
  ∃ s es, s ∈ product (seq 1 n) (n - 2) ∧ prufer_to_tree s n = Some es ∧
          decoded (labels n) s es ∧ G = graph_of n es.
Proof.
  intros Hn Hund Hnodes Htree.
  pose proof (is_tree_tree_on G Hund Htree) as Hon. rewrite Hnodes in Hon.
  destruct (tree_on_decoded (n - 2) (labels n) (neighbors G)) as (s & es & Hdec & Hadj);
    [rewrite size_labels; lia|done|].
  pose proof (decoded_size _ _ _ Hdec) as Hsize. rewrite size_labels in Hsize.
  assert (s ∈ product (seq 1 n) (n - 2)) as Hs.
  { apply elem_of_product. split; [lia|]. apply Forall_forall. intros x Hx.
    apply (decoded_sequence _ _ _ Hdec), elem_of_labels in Hx. apply elem_of_seq. lia. }
  destruct (decode_graph_returns n s Hn Hs) as (es' & Hes' & _ & Hdec').
  rewrite (decoded_deterministic _ _ _ Hdec' _ Hdec) in Hes'.
  exists s, es. split; [done|]. split; [done|]. split; [done|].
  by eapply graph_of_decoded_eq.
Qed.

End every_graph.

(** ** Cayley's formula *)

Section cayley.
Import NX Cayley.

Lemma mapM_total {A B} (f : A → option B) (l : list A) :
  (∀ x, x ∈ l → is_Some (f x)) →
  ∃ k, mapM f l = Some k ∧ Forall2 (λ x y, f x = Some y) l k.
Proof.
  induction l as [|x l IH]; intros Hf.
  - exists []. split; [done|constructor].
  - destruct (Hf x) as [y Hy]; [set_solver|].
    destruct IH as (k & Hk & Hall); [set_solver|].
    exists (y :: k). split; [|by constructor].
    cbn [mapM]. rewrite Hy. cbn [mbind option_bind]. rewrite Hk. done.
Qed.

Lemma undirected_graph_of n es : undirected (graph_of n es).
Proof. intros u v. rewrite !neighbors_graph_of. apply adj_sym. Qed.

Lemma graph_of_prufer_sequence n s es :
  decoded (labels n) s es →
  prufer_sequence (λ x y, has_edge (graph_of n es) x y = true) (labels n) s.
Proof.
  intros Hdec. eapply prufer_sequence_ext; [by apply decoded_prufer_sequence|].
  intros x y _ _. symmetry. apply has_edge_graph_of.
Qed.

(** Claim C1.  For [n >= 2], [all_labeled_trees n] returns a list of
    [n^(n-2)] graphs, one for each sequence of length [n - 2] over
    [1..n], in the order of [itertools.product].  Each is an undirected
    graph on the nodes [1..n] that is connected, has no cycle and has
    [n - 1] edges, and the sequence it was built from is its Pruefer
    sequence.  No two graphs of the list have the same edges.  Every
    tree on [1..n] is in the list, at the position of the one sequence
    that is its Pruefer sequence. *)
Theorem all_labeled_trees_cayley (n : nat) :
  2 ≤ n →
  ∃ trees,
    all_labeled_trees n = Some trees ∧
    length trees = n ^ (n - 2) ∧
    Forall2 (λ s G,
               ∃ es, prufer_to_tree s n = Some es ∧ G = graph_of n es ∧
                     prufer_sequence (λ x y, has_edge G x y = true) (labels n) s)
            (product (seq 1 n) (n - 2)) trees ∧
    Forall (λ G, undirected G ∧ nodes G = labels n ∧
                 number_of_edges G = n - 1 ∧ is_tree G) trees ∧
    (∀ i j Gi Gj,
       trees !! i = Some Gi → trees !! j = Some Gj →
       (∀ u v, has_edge Gi u v = has_edge Gj u v) → i = j) ∧
    (∀ G, undirected G → nodes G = labels n → is_tree G →
       ∃ i s, trees !! i = Some G ∧ product (seq 1 n) (n - 2) !! i = Some s ∧
              ∀ s', prufer_sequence (λ x y, has_edge G x y = true) (labels n) s'
                    ↔ s' = s).
Proof.
  intros Hn. rewrite all_labeled_trees_mapM by done.
  destruct (mapM_total (decode_graph n) (product (seq 1 n) (n - 2))) as (trees & Hmap & Hall).
  { intros s Hs. destruct (decode_graph_returns n s Hn Hs) as (es & _ & -> & _). eauto. }
  assert (Forall2 (λ s G, ∃ es, prufer_to_tree s n = Some es ∧ G = graph_of n es ∧
                               decoded (labels n) s es)
            (product (seq 1 n) (n - 2)) trees) as Hdecoded.
  { apply Forall2_same_length_lookup. split; [by eapply Forall2_length|].
    intros i s G Hs HG. pose proof (Forall2_lookup_lr _ _ _ _ _ _ Hall Hs HG) as Hsg.
    destruct (decode_graph_returns n s Hn) as (es & Hes & Hdg & Hdec).
    { by eapply list_elem_of_lookup_2. }
    exists es. split; [done|]. split; [congruence|done]. }
  exists trees. split; [done|]. split; [|split; [|split; [|split]]].
  - rewrite <-(Forall2_length _ _ _ Hall), length_product, length_seq. done.
  - eapply Forall2_impl; [exact Hdecoded|]. intros s G (es & Hes & -> & Hdec).
    exists es. split; [done|]. split; [done|]. by apply graph_of_prufer_sequence.
  - apply Forall_forall. intros G HG. apply list_elem_of_lookup in HG as [i HG].
    destruct (Forall2_lookup_r _ _ _ _ _ Hdecoded HG) as (s & _ & es & _ & -> & Hdec).
    split; [apply undirected_graph_of|]. by apply decoded_is_tree in Hdec.
  - intros i j Gi Gj Hi Hj Hsame.
    destruct (Forall2_lookup_r _ _ _ _ _ Hdecoded Hi) as (si & Hsi & esi & _ & -> & Hdeci).
    destruct (Forall2_lookup_r _ _ _ _ _ Hdecoded Hj) as (sj & Hsj & esj & _ & -> & Hdecj).
    assert (si = sj) as <-.
    { eapply decoded_injective; [exact Hdeci|exact Hdecj|].
      intros x y. rewrite <-!has_edge_graph_of. by rewrite Hsame. }
    eapply NoDup_lookup; [|exact Hsi|exact Hsj]. apply NoDup_product, NoDup_seq.
  - intros G Hund Hnodes Htree.
    destruct (tree_is_decoded G n Hn Hund Hnodes Htree) as (s & es & Hs & Hes & Hdec & ->).
    apply list_elem_of_lookup in Hs as [i Hi].
    destruct (Forall2_lookup_l _ _ _ _ _ Hdecoded Hi) as (G' & HG' & es' & Hes' & -> & _).
    exists i, s. split; [congruence|]. split; [done|].
    intros s'. split.
    + intros Hs'. eapply prufer_sequence_unique; [exact Hs'|].
      by apply graph_of_prufer_sequence.
    + intros ->. by apply graph_of_prufer_sequence.
Qed.

(** Cayley's formula for the three rows of the figure: 1, 3 and 16 trees. *)
Lemma all_labeled_trees_cayley_witness :
  (∃ trees, all_labeled_trees 2 = Some trees ∧ length trees = 1) ∧
  (∃ trees, all_labeled_trees 3 = Some trees ∧ length trees = 3) ∧
  (∃ trees, all_labeled_trees 4 = Some trees ∧ length trees = 16).
Proof.
  split; [|split].
  - destruct (all_labeled_trees_cayley 2) as (trees & Hall & Hlen & _); [lia|].
    exists trees. split; [exact Hall|exact Hlen].
  - destruct (all_labeled_trees_cayley 3) as (trees & Hall & Hlen & _); [lia|].
    exists trees. split; [exact Hall|exact Hlen].
  - destruct (all_labeled_trees_cayley 4) as (trees & Hall & Hlen & _); [lia|].
    exists trees. split; [exact Hall|exact Hlen].
Defined.

End cayley.

(** ** Pruefer decoding: labels out of range, degrees, the last edge *)

Section decoder_facts.
Import NX Cayley.

(** [degree[v] += k] keeps the keys of the dict. *)
Lemma bump_keys k v (d d' : gmap nat Z) :
  bump k v d = Some d' → ∀ x, is_Some (d' !! x) ↔ is_Some (d !! x).
Proof.
  unfold bump. intros Hb x. destruct (d !! v) as [dv|] eqn:Hv; simplify_eq/=.
  destruct (decide (v = x)) as [->|Hne].
  - rewrite lookup_insert_eq, Hv. split; eauto.
  - by rewrite lookup_insert_ne.
Qed.

Lemma bump_is_Some k v (d : gmap nat Z) :
  is_Some (bump k v d) ↔ is_Some (d !! v).
Proof.
  unfold bump. destruct (d !! v); simpl; split; intros [? ?]; eauto; done.
Qed.

Lemma count_degrees_None s : ∀ d : gmap nat Z,
  count_degrees s d = None ↔ ∃ x, x ∈ s ∧ d !! x = None.
Proof.
  induction s as [|v s IH]; intros d; simpl.
  - split; [done|]. intros (x & Hx & _). by apply elem_of_nil in Hx.
  - destruct (bump 1 v d) as [d'|] eqn:Hb; simpl.
    + rewrite IH. pose proof (bump_keys _ _ _ _ Hb) as Hkeys.
      assert (is_Some (d !! v)) as Hv by (apply (bump_is_Some 1); eauto).
      split.
      * intros (x & Hx & Hnone). exists x. split; [set_solver|].
        apply eq_None_not_Some. rewrite <-Hkeys. by apply eq_None_not_Some.
      * intros (x & Hx & Hnone). exists x. split.
        -- apply elem_of_cons in Hx as [->|Hx]; [|done].
           rewrite Hnone in Hv. by destruct Hv.
        -- apply eq_None_not_Some. rewrite Hkeys. by apply eq_None_not_Some.
    + split; [|done]. intros _. exists v. split; [set_solver|].
      apply eq_None_not_Some. rewrite <-(bump_is_Some 1). rewrite Hb. by intros [? ?].
Qed.

Lemma count_degrees_keys s : ∀ d d' : gmap nat Z,
  count_degrees s d = Some d' → ∀ x, is_Some (d' !! x) ↔ is_Some (d !! x).
Proof.
  induction s as [|v s IH]; intros d d' Hc x; simpl in Hc.
  - by simplify_eq.
  - destruct (bump 1 v d) as [d1|] eqn:Hb; simpl in Hc; [|done].
    rewrite (IH _ _ Hc). by apply (bump_keys _ _ _ _ Hb).
Qed.

Local Abbreviation all_keys n d := (∀ x : nat, is_Some ((d : gmap nat Z) !! x) ↔ 1 ≤ x ≤ n).

Lemma all_keys_init n : all_keys n (init_degree n).
Proof.
  intros x. unfold init_degree. rewrite init_degree_lookup.
  case_decide; split; intros; eauto; try lia. by destruct H0.
Qed.

Lemma attach_keys n d acc v :
  all_keys n d → 1 ≤ v ≤ n →
  ∃ d' acc', attach n (d, acc) v = Some (d', acc') ∧ all_keys n d'.
Proof.
  intros Hkeys Hv. unfold attach. simpl.
  destruct (find_leaf_seq n 1 d) as (r & -> & Hr).
  { intros x Hx. apply Hkeys. lia. }
  simpl. destruct r as [u|]; [|eauto].
  destruct Hr as (Hu & _ & _).
  destruct (bump (-1) u d) as [d1|] eqn:Hb1; simpl.
  - pose proof (bump_keys _ _ _ _ Hb1) as Hk1.
    destruct (bump (-1) v d1) as [d2|] eqn:Hb2; simpl.
    + pose proof (bump_keys _ _ _ _ Hb2) as Hk2.
      eexists _, _. split; [done|]. intros x. by rewrite Hk2, Hk1.
    + exfalso. assert (is_Some (bump (-1) v d1)) as [? Hs]; [|congruence].
      apply bump_is_Some. rewrite Hk1. apply Hkeys. lia.
  - exfalso. assert (is_Some (bump (-1) u d)) as [? Hs]; [|congruence].
    apply bump_is_Some. apply Hkeys. lia.
Qed.

Lemma attach_all_keys n s : ∀ d acc,
  all_keys n d → Forall (λ x, 1 ≤ x ≤ n) s →
  ∃ d' acc', attach_all n (d, acc) s = Some (d', acc') ∧ all_keys n d'.
Proof.
  induction s as [|v s IH]; intros d acc Hkeys Hs; simpl.
  - eauto.
  - apply Forall_cons in Hs as [Hv Hs].
    destruct (attach_keys n d acc v Hkeys Hv) as (d1 & acc1 & -> & Hk1). simpl.
    by apply IH.
Qed.

(** The node that is never removed is the largest one; every other node
    is the first component of exactly one edge. *)
Lemma decoded_rooted V s es :
  decoded V s es →
  ∃ m, m ∈ V ∧ (∀ x, x ∈ V → x ≤ m) ∧ NoDup es.*1 ∧
       (∀ x, x ∈ es.*1 ↔ x ∈ V ∧ x ≠ m) ∧ es.*2 = s ++ [m].
Proof.
  induction 1 as [a b Hab|V u v s es Hu Hnot Hmin Hv Hdec (m & Hm & Hmax & Hnd & Hin & Hsnd)].
  - exists b. split; [set_solver|]. split.
    { intros x Hx. apply elem_of_union in Hx as [Hx|Hx];
        apply elem_of_singleton in Hx; lia. }
    split; [apply NoDup_singleton|]. split; [|done].
    intros x. simpl. rewrite list_elem_of_singleton.
    rewrite elem_of_union, !elem_of_singleton. lia.
  - pose proof (decoded_size _ _ _ Hdec) as Hsize.
    destruct (exists_not_in_sequence (V ∖ {[u]}) (v :: s)) as (w & Hw & Hws).
    { simpl. lia. }
    assert (u < m) as Hum.
    { apply elem_of_difference in Hw as [HwV Hwu].
      rewrite elem_of_singleton in Hwu.
      assert (¬ w < u) by (intros Hlt; by apply Hws, Hmin).
      assert (w ≤ m) by (apply Hmax; set_solver). lia. }
    exists m. split; [set_solver|]. split.
    { intros x Hx. destruct (decide (x = u)) as [->|]; [lia|].
      apply Hmax. set_solver. }
    split.
    { rewrite fmap_cons. simpl. apply NoDup_cons. split; [|done].
      rewrite Hin. set_solver. }
    split.
    { intros x. rewrite fmap_cons, elem_of_cons, Hin. simpl.
      rewrite elem_of_difference, elem_of_singleton.
      split; [intros [->|[[? ?] ?]]; split; (done || lia)|].
      intros [? ?]. destruct (decide (x = u)); [by left|by right]. }
    rewrite fmap_cons, Hsnd. done.
Qed.

(** The neighbours of a node in a decoded tree: one more than the number
    of times the sequence names it. *)
Lemma decoded_degree V s es :
  decoded V s es →
  ∀ N : nat → gset nat, (∀ x y, y ∈ N x ↔ adj es x y) →
  ∀ x, x ∈ V → size (N x) = 1 + count_occ Nat.eq_dec s x.
Proof.
  induction 1 as [a b Hab|V u v s es Hu Hnot Hmin Hv Hdec IH]; intros N HN x Hx.
  - assert (N x = {[ if decide (x = a) then b else a ]}) as ->.
    { apply set_eq. intros y. rewrite HN, elem_of_singleton. unfold adj.
      rewrite !list_elem_of_singleton.
      apply elem_of_union in Hx as [Hx|Hx]; apply elem_of_singleton in Hx; subst x;
        case_decide; split; intros; simplify_eq; try lia; naive_solver lia. }
    by rewrite size_singleton.
  - assert (u ≠ v) as Huv by (intros ->; apply Hnot; set_solver).
    pose proof (decoded_range _ _ _ Hdec) as Hrange.
    set (N' := λ y, if decide (y = u) then (∅ : gset nat) else N y ∖ {[u]}).
    assert (∀ a b, b ∈ N' a ↔ adj es a b) as HN'.
    { intros a b. unfold N'. case_decide as Ha.
      - subst a. split; [set_solver|]. intros Hadj. apply Hrange in Hadj. set_solver.
      - rewrite elem_of_difference, HN, adj_cons, elem_of_singleton. split.
        + intros [[[-> ->]|[[-> ->]|?]] ?]; done.
        + intros Hadj. split; [by right; right|]. intros ->.
          apply adj_sym, Hrange in Hadj. set_solver. }
    destruct (decide (x = u)) as [->|Hxu].
    + assert (N u = {[v]}) as ->.
      { apply set_eq. intros y. rewrite HN, adj_cons, elem_of_singleton. split.
        - intros [[_ ->]|[[-> ->]|Hadj]]; [done|done|].
          apply Hrange in Hadj. set_solver.
        - intros ->. by left. }
      rewrite size_singleton.
      assert (count_occ Nat.eq_dec (v :: s) u = 0) as ->; [|done].
      apply count_occ_not_In. by rewrite <-list_elem_of_In.
    + specialize (IH N' HN' x ltac:(set_solver)).
      destruct (decide (x = v)) as [->|Hxv].
      * assert (N v = {[u]} ∪ N' v) as ->.
        { apply set_eq. intros y. rewrite elem_of_union, elem_of_singleton, HN, HN', adj_cons.
          split; [intros [[-> ->]|[[_ ->]|?]]; by auto|].
          intros [->|?]; [by right; left|by right; right]. }
        rewrite size_union by (unfold N'; rewrite decide_False by done; set_solver).
        rewrite size_singleton, IH, count_occ_cons_eq by done. lia.
      * assert (N x = N' x) as ->.
        { apply set_eq. intros y. rewrite HN, HN', adj_cons. split; [|by auto].
          intros [[-> ->]|[[-> ->]|?]]; done. }
        rewrite IH, count_occ_cons_neq by done. done.
Qed.

(** [prufer_to_tree] raises (a [KeyError], at [degree[v] += 1]) exactly
    when the sequence names a node outside [1..n]; the length of the
    sequence does not matter. *)
Theorem prufer_to_tree_raises_iff_label_out_of_range (prufer_seq : list nat) (n : nat) :
  prufer_to_tree prufer_seq n = None ↔ ∃ v, v ∈ prufer_seq ∧ ¬ (1 ≤ v ≤ n).
Proof.
  split.
  - intros Hnone. destruct (decide (Forall (λ x, 1 ≤ x ≤ n) prufer_seq)) as [Hall|Hbad].
    + exfalso. unfold prufer_to_tree in Hnone.
      destruct (count_degrees prufer_seq (init_degree n)) as [d|] eqn:Hc.
      * simpl in Hnone.
        assert (all_keys n d) as Hkeys.
        { intros x. rewrite (count_degrees_keys _ _ _ Hc). apply all_keys_init. }
        destruct (attach_all_keys n prufer_seq d [] Hkeys Hall) as (d' & acc' & Ha & Hk').
        rewrite Ha in Hnone. simpl in Hnone.
        rewrite leaves_seq in Hnone by (intros x Hx; apply Hk'; lia). done.
      * apply count_degrees_None in Hc as (x & Hx & Hnone').
        rewrite Forall_forall in Hall. apply Hall in Hx.
        apply eq_None_not_Some in Hnone'. apply Hnone'. apply (all_keys_init n x). lia.
    + apply not_Forall_Exists in Hbad; [|apply _].
      apply Exists_exists in Hbad as (v & Hv & Hbad). eauto.
  - intros (v & Hv & Hbad). unfold prufer_to_tree.
    assert (count_degrees prufer_seq (init_degree n) = None) as ->; [|done].
    apply count_degrees_None. exists v. split; [done|].
    apply eq_None_not_Some. by rewrite (all_keys_init n v).
Qed.

(** In the tree decoded from a sequence of length [n - 2] over [1..n],
    the degree of every node is one more than the number of times the
    sequence names it. *)
Theorem prufer_to_tree_degrees (prufer_seq : list nat) (n : nat) :
  length prufer_seq + 2 = n → Forall (λ v, 1 ≤ v ≤ n) prufer_seq →
  ∃ es, prufer_to_tree prufer_seq n = Some es ∧
        ∀ v, 1 ≤ v ≤ n →
             degree (graph_of n es) v = 1 + count_occ Nat.eq_dec prufer_seq v.
Proof.
  intros Hlen Hs. destruct (prufer_to_tree_decoded n prufer_seq Hlen Hs) as (es & Hes & Hdec).
  exists es. split; [done|]. intros v Hv. unfold degree.
  assert (has_edge (graph_of n es) v v = false) as ->.
  { apply not_true_is_false. rewrite has_edge_graph_of. intros Hadj.
    by apply (decoded_endpoints _ _ _ Hdec) in Hadj as (_ & _ & ?). }
  rewrite Nat.add_0_r.
  apply (decoded_degree _ _ _ Hdec (neighbors (graph_of n es))).
  - intros x y. apply neighbors_graph_of.
  - by apply elem_of_labels.
Qed.

Lemma prufer_to_tree_degrees_witness :
  ∃ es, prufer_to_tree [4; 4] 4 = Some es ∧
        degree (graph_of 4 es) 4 = 3 ∧ degree (graph_of 4 es) 1 = 1.
Proof.
  destruct (prufer_to_tree_degrees [4; 4] 4) as (es & Hes & Hdeg);
    [reflexivity|repeat constructor; lia|].
  exists es. split; [exact Hes|].
  split; [apply (Hdeg 4); lia|apply (Hdeg 1); lia].
Defined.

(** The edges come out oriented towards node [n]: the second components
    are the sequence followed by [n], and every node but [n] is the first
    component of exactly one edge. *)
Theorem prufer_to_tree_edges_point_to_n (prufer_seq : list nat) (n : nat) :
  length prufer_seq + 2 = n → Forall (λ v, 1 ≤ v ≤ n) prufer_seq →
  ∃ es, prufer_to_tree prufer_seq n = Some es ∧
        es.*2 = prufer_seq ++ [n] ∧
        es.*1 ≡ₚ seq 1 (n - 1).
Proof.
  intros Hlen Hs. destruct (prufer_to_tree_decoded n prufer_seq Hlen Hs) as (es & Hes & Hdec).
  exists es. split; [done|].
  destruct (decoded_rooted _ _ _ Hdec) as (m & Hm & Hmax & Hnd & Hin & Hsnd).
  assert (m = n) as ->.
  { apply elem_of_labels in Hm. assert (n ≤ m); [|lia].
    apply Hmax, elem_of_labels. lia. }
  split; [done|]. apply NoDup_Permutation; [done|apply NoDup_seq|].
  intros x. rewrite Hin, elem_of_labels, elem_of_seq. lia.
Qed.

Lemma prufer_to_tree_edges_point_to_n_witness :
  ∃ es, prufer_to_tree [3; 1] 4 = Some es ∧ es.*2 = [3; 1; 4].
Proof.
  destruct (prufer_to_tree_edges_point_to_n [3; 1] 4) as (es & Hes & Hsnd & _);
    [reflexivity|repeat constructor; lia|].
  exists es. split; [exact Hes|exact Hsnd].
Defined.

End decoder_facts.

(** ** The attention matrix *)

Section heatmap_facts.
Import Heatmap.

Lemma sorted_pair_key key a b : sorted_pair key = Some (a, b) → key = {[a; b]}.
Proof.
  unfold sorted_pair. intros Hs.
  assert (merge_sort (≤) (elements key) = [a; b]) as Hm.
  { destruct (merge_sort (≤) (elements key)) as [|x [|y [|z l]]]; by simplify_eq. }
  pose proof (merge_sort_Permutation (≤) (elements key)) as Hp. rewrite Hm in Hp.
  apply set_eq. intros x. rewrite <-elem_of_elements, <-Hp.
  rewrite elem_of_union, !elem_of_singleton, elem_of_cons, list_elem_of_singleton.
  done.
Qed.

Lemma cell_set_cell_ne mat mat' a b w i j :
  set_cell mat a b w = Some mat' → (a, b) ≠ (i, j) → cell mat' i j = cell mat i j.
Proof.
  unfold set_cell, cell. intros Hset Hne.
  destruct (mat !! a) as [row|] eqn:Hrow; simpl in Hset; [|done].
  case_bool_decide; [|done]. simplify_eq.
  destruct (decide (a = i)) as [->|Hai].
  - rewrite list_lookup_insert_eq by (by eapply lookup_lt_Some).
    rewrite Hrow. simpl. apply list_lookup_insert_ne. congruence.
  - by rewrite list_lookup_insert_ne.
Qed.

Lemma cell_fill_absent items : ∀ mat mat' i j,
  fill mat items = Some mat' → {[i; j]} ∉ items.*1 → cell mat' i j = cell mat i j.
Proof.
  induction items as [|[key weight] rest IH]; intros mat mat' i j Hfill Hnot.
  - by simplify_eq/=.
  - simpl in Hfill.
    destruct (sorted_pair key) as [[a b]|] eqn:Hkey; simpl in Hfill; [|done].
    destruct (set_cell mat a b weight) as [mat1|] eqn:H1; simpl in Hfill; [|done].
    destruct (set_cell mat1 b a weight) as [mat2|] eqn:H2; simpl in Hfill; [|done].
    apply sorted_pair_key in Hkey. subst key.
    rewrite fmap_cons, not_elem_of_cons in Hnot. destruct Hnot as [Hne Hnot].
    rewrite (IH _ _ _ _ Hfill Hnot).
    rewrite (cell_set_cell_ne _ _ _ _ _ i j H2), (cell_set_cell_ne _ _ _ _ _ i j H1).
    + done.
    + intros [= -> ->]. apply Hne. simpl. apply set_eq. intros x.
      rewrite !elem_of_union, !elem_of_singleton. tauto.
    + intros [= -> ->]. apply Hne. simpl. apply set_eq. intros x.
      rewrite !elem_of_union, !elem_of_singleton. tauto.
Qed.

Lemma cell_fill_diagonal mat v i j :
  i ≠ j → cell (fill_diagonal mat v) i j = cell mat i j.
Proof.
  intros Hne. unfold cell, fill_diagonal. rewrite list_lookup_imap.
  destruct (mat !! i) as [row|]; simpl; [|done]. by apply list_lookup_insert_ne.
Qed.

Lemma cell_zeros rows cols i j :
  i < rows → j < cols → cell (zeros rows cols) i j = Some 0%float.
Proof.
  intros Hi Hj. unfold cell, zeros. rewrite lookup_replicate_2 by done. simpl.
  by apply lookup_replicate_2.
Qed.

(** Claim C9.  [build_matrix] returns a 6 by 6 matrix; it is symmetric,
    its diagonal is 1.0 and every entry lies between 0 and 1; no row
    adds up to 1; and whatever the table, an off-diagonal entry whose
    pair is not a key of the table is 0. *)
Theorem build_matrix_symmetric_unit_diagonal :
  ∃ mat,
    build_matrix = Some mat ∧
    length mat = 6 ∧ Forall (λ row, length row = 6) mat ∧
    (∀ i j, i < 6 → j < 6 →
       ∃ a, cell mat i j = Some a ∧ cell mat j i = Some a ∧
            (i = j → a = 1%float) ∧
            (0 <=? a)%float = true ∧ (a <=? 1)%float = true) ∧
    Forall (λ row, (row_sum row =? 1)%float = false) mat ∧
    (∀ table mat' i j,
       build_matrix_from table = Some mat' → i < 6 → j < 6 → i ≠ j →
       {[i; j]} ∉ table.*1 → cell mat' i j = Some 0%float).
Proof.
  eexists. split; [by vm_compute|]. split; [done|].
  split; [repeat constructor|]. split; [|split].
  - intros i j Hi Hj.
    do 6 (destruct i as [|i]; [do 6 (destruct j as [|j];
      [eexists; split; [by vm_compute|]; split; [by vm_compute|];
       split; [try done; by intros _; vm_compute|]; split; by vm_compute|]); lia|]).
    lia.
  - repeat (constructor; [by vm_compute|]). constructor.
  - intros table mat' i j Hbuild Hi Hj Hne Habs.
    unfold build_matrix_from in Hbuild.
    destruct (fill (zeros N N) table) as [mat0|] eqn:Hfill; simpl in Hbuild; [|done].
    simplify_eq. rewrite cell_fill_diagonal by done.
    rewrite (cell_fill_absent _ _ _ _ _ Hfill Habs). by apply cell_zeros.
Qed.

End heatmap_facts.

(** ** The runners *)

Section runner_facts.
Import Py Runner.
Context {World exn : Type} `{!ExceptionClass exn}.
Variable import_module : string → World → World * outcome exn (pymodule World exn).
Variable makedirs : string → World → World.
Variable sys_path_add : string → World → World.
Variable abspath : string → string.
Variable SCRIPT_DIR IMAGES_DIR lecture : string.
Variable SCRIPTS : list string.

Local Abbreviation run_script := (Runner.run_script import_module).
Local Abbreviation script_effect := (Runner.script_effect import_module).
Local Abbreviation run_log := (Runner.run_log import_module).
Local Abbreviation run_all := (Runner.run_all import_module).
Local Abbreviation main :=
  (Runner.main import_module makedirs sys_path_add abspath
     SCRIPT_DIR IMAGES_DIR lecture SCRIPTS).

Ltac run_runner :=
  unfold mbind, mret, M_bind, M_ret, bind, ret, try_except_Exception, lift,
    in_world, print;
  simpl.

Lemma run_script_effect module_name (st : state World exn) :
  run_script module_name st =
  match script_effect module_name (world st) with
  | (w', None) => ({| world := w'; out := out st |}, Returns true)
  | (w', Some e) =>
      if is_Exception e
      then ({| world := w'; out := out st ++ [Traceback e] |}, Returns false)
      else ({| world := w'; out := out st |}, Raises e)
  end.
Proof.
  unfold Runner.run_script, Runner.script_effect. run_runner.
  destruct st as [w o]; simpl.
  destruct (import_module module_name w) as [w1 [m|e]]; simpl.
  - destruct (py_main m) as [f|]; simpl; [|done].
    destruct (f w1) as [w2 [[]|e]]; simpl; [done|].
    by destruct (is_Exception e).
  - by destruct (is_Exception e).
Qed.

Lemma counts_success name (runs : list (string * bool)) :
  Py.successes_of ((name, true) :: runs) = S (Py.successes_of runs) ∧
  Py.failures_of ((name, true) :: runs) = Py.failures_of runs.
Proof. done. Qed.

Lemma counts_failure name (runs : list (string * bool)) :
  Py.successes_of ((name, false) :: runs) = Py.successes_of runs ∧
  Py.failures_of ((name, false) :: runs) = name :: Py.failures_of runs.
Proof. done. Qed.

Lemma counts_total (runs : list (string * bool)) :
  Py.successes_of runs + length (Py.failures_of runs) = length runs.
Proof.
  induction runs as [|[name [|]] runs IH]; [done| |].
  - destruct (counts_success name runs) as [-> ->]. simpl. lia.
  - destruct (counts_failure name runs) as [-> ->]. simpl. lia.
Qed.

(** The loop against its log. *)
Lemma run_all_log total scripts : ∀ i successes failures (st : state World exn),
  ∃ o,
    run_all total i scripts successes failures st =
    ({| world := (run_log scripts (world st)).1.2; out := o |},
     match (run_log scripts (world st)).2 with
     | None => Returns (successes + Py.successes_of (run_log scripts (world st)).1.1,
                        failures ++ Py.failures_of (run_log scripts (world st)).1.1)
     | Some e => Raises e
     end).
Proof.
  induction scripts as [|name rest IH]; intros i successes failures st.
  - exists (out st). simpl. unfold mret, M_ret, ret. destruct st; simpl.
    by rewrite Nat.add_0_r, app_nil_r.
  - simpl. unfold mbind, M_bind, bind at 1. unfold print at 1, lift at 1.
    unfold bind at 1. rewrite run_script_effect. simpl.
    destruct (script_effect name (world st)) as [w' [e|]] eqn:Heff; simpl.
    + destruct (is_Exception e) eqn:He; simpl.
      * unfold bind at 1, print at 1, lift at 1. simpl.
        edestruct IH as [o Ho]. rewrite Ho. simpl. exists o.
        destruct (run_log rest w') as [[runs w''] stop]. simpl.
        destruct stop; [done|].
        destruct (counts_failure name runs) as [-> ->].
        by rewrite <-app_assoc.
      * eexists. done.
    + unfold bind at 1, print at 1, lift at 1. simpl.
      edestruct IH as [o Ho]. rewrite Ho. simpl. exists o.
      destruct (run_log rest w') as [[runs w''] stop]. simpl.
      destruct stop; [done|].
      destruct (counts_success name runs) as [-> ->].
      do 3 f_equal. lia.
Qed.

(** The log names the scripts in order: all of them, or those before
    the one that raised an exception that is not an [Exception]. *)
Lemma run_log_names scripts : ∀ w : World,
  match (run_log scripts w).2 with
  | None => (run_log scripts w).1.1.*1 = scripts
  | Some e =>
      is_Exception e = false ∧
      ∃ script_name rest,
        scripts = (run_log scripts w).1.1.*1 ++ script_name :: rest
  end.
Proof.
  induction scripts as [|name rest IH]; intros w; simpl; [done|].
  destruct (script_effect name w) as [w' [e|]] eqn:Heff; simpl.
  - destruct (is_Exception e) eqn:He; simpl.
    + specialize (IH w'). destruct (run_log rest w') as [[runs w''] [e'|]]; simpl in *.
      * destruct IH as (? & n & r & ->). split; [done|]. by exists n, r.
      * simpl. by f_equal.
    + split; [done|]. by exists name, rest.
  - specialize (IH w'). destruct (run_log rest w') as [[runs w''] [e'|]]; simpl in *.
    + destruct IH as (? & n & r & ->). split; [done|]. by exists n, r.
    + simpl. by f_equal.
Qed.

(** Claim C3, amended.  [run_script] returns [True], printing nothing,
    exactly when importing the module and calling its [main] (if it has
    one) raises no exception; it prints the traceback and returns [False]
    when an instance of [Exception] is raised; any other exception
    ([KeyboardInterrupt], [SystemExit]) goes through it.  [main] runs the
    scripts of [SCRIPTS] in the order of the list.  When none of them
    raises such an exception, each is run once, the number of successes
    and the number of failed names add up to the length of [SCRIPTS], and
    [main] prints that summary and returns 0 when no script failed and 1
    otherwise.  Otherwise the run ends at the first script that raises
    one, and [main] raises it. *)
Theorem generate_all_counts_or_propagates :
  (∀ module_name (st : state World exn),
     ∃ st',
       world st' = (script_effect module_name (world st)).1 ∧
       match (script_effect module_name (world st)).2 with
       | None =>
           run_script module_name st = (st', Returns true) ∧ out st' = out st
       | Some e =>
           if is_Exception e
           then run_script module_name st = (st', Returns false) ∧
                out st' = out st ++ [Traceback e]
           else run_script module_name st = (st', Raises e) ∧ out st' = out st
       end) ∧
  (∀ st : state World exn,
     let w0 := sys_path_add SCRIPT_DIR (makedirs IMAGES_DIR (world st)) in
     let runs := (run_log SCRIPTS w0).1.1 in
     let successes := Py.successes_of runs in
     let failures := Py.failures_of runs in
     ∃ st',
       world st' = (run_log SCRIPTS w0).1.2 ∧
       match (run_log SCRIPTS w0).2 with
       | None =>
           main st = (st', Returns (if bool_decide (failures = []) then 0 else 1)%Z) ∧
           runs.*1 = SCRIPTS ∧
           successes + length failures = length SCRIPTS ∧
           Summary successes (length SCRIPTS) ∈ out st' ∧
           (failures ≠ [] → FailedNames failures ∈ out st')
       | Some e =>
           main st = (st', Raises e) ∧ is_Exception e = false ∧
           ∃ script_name rest, SCRIPTS = runs.*1 ++ script_name :: rest
       end).
Proof.
  split.
  - intros module_name st. rewrite run_script_effect.
    destruct (script_effect module_name (world st)) as [w' [e|]]; simpl.
    + destruct (is_Exception e).
      * by exists {| world := w'; out := out st ++ [Traceback e] |}.
      * by exists {| world := w'; out := out st |}.
    + by exists {| world := w'; out := out st |}.
  - intros st w0 runs successes failures.
    unfold Runner.main. run_runner.
    match goal with |- context [Runner.run_all _ ?t ?i ?l ?s ?f ?st0] =>
      destruct (run_all_log t l i s f st0) as [o Ho] end.
    rewrite Ho. simpl. fold w0.
    pose proof (run_log_names SCRIPTS w0) as Hnames.
    destruct (run_log SCRIPTS w0) as [[runs' w'] stop] eqn:Hlog. simpl in *.
    subst runs successes failures. simpl.
    destruct stop as [e|]; simpl.
    + by exists {| world := w'; out := o |}.
    + destruct (bool_decide (Py.failures_of runs' = [])) eqn:Hf; simpl.
      * eexists {| world := w'; out := _ |}. split; [done|]. split; [done|].
        split; [done|].
        split. { rewrite counts_total. by rewrite <-(length_fmap fst runs'), Hnames. }
        split; [simpl; set_solver|].
        intros Hne. by apply bool_decide_eq_true in Hf.
      * eexists {| world := w'; out := _ |}. split; [done|]. split; [done|].
        split; [done|].
        split. { rewrite counts_total. by rewrite <-(length_fmap fst runs'), Hnames. }
        split; [simpl; set_solver|]. intros _. simpl. set_solver.
Qed.

(** Claim C10.  A module that imports without raising and defines no
    [main] is a success: [run_script] returns [True], prints no
    traceback and leaves the world as the import left it. *)
Theorem run_script_without_main module_name (st : state World exn) w1 m :
  import_module module_name (world st) = (w1, Returns m) →
  py_main m = None →
  run_script module_name st = ({| world := w1; out := out st |}, Returns true).
Proof.
  intros Himp Hmain. rewrite run_script_effect.
  unfold Runner.script_effect. rewrite Himp, Hmain. done.
Qed.

End runner_facts.

(** Claim C3 as it is stated fails: a [KeyboardInterrupt] raised while a
    script is imported is not an [Exception], so [run_script] does not
    return [False]; it raises, and nothing is printed. *)
Lemma run_script_lets_keyboard_interrupt_through :
  Runner.run_script (λ _ w, (w, Py.Raises Py.KeyboardInterrupt))
    "gen_01_konigsberg" {| Runner.world := tt; Runner.out := [] |}
  = ({| Runner.world := tt; Runner.out := [] |}, Py.Raises Py.KeyboardInterrupt).
Proof. reflexivity. Qed.

(** A run of the runner of lecture-08 that Ctrl-C ends in its third
    script: two scripts are logged, and [main] raises. *)
Lemma generate_all_counts_or_propagates_witness :
  ∃ st',
    Runner.main
      (λ name w, if bool_decide (name = "gen_03_euler_path")
                 then (w, Py.Raises Py.KeyboardInterrupt)
                 else Repo.import_module Repo.Lecture08 name w)
      (λ _ w, w) (λ _ w, w) (λ p, p)
      (Repo.script_dir Repo.Lecture08) (Repo.images_dir Repo.Lecture08) "lecture-08"
      ["gen_01_konigsberg"; "gen_02_konigsberg_graph"; "gen_03_euler_path";
       "gen_04_cayley_trees"]
      {| Runner.world := []; Runner.out := [] |}
    = (st', Py.Raises Py.KeyboardInterrupt) ∧
    Runner.world st' =
      [Repo.output_path Repo.Lecture08 "01-konigsberg-map.png";
       Repo.output_path Repo.Lecture08 "02-konigsberg-graph.png"].
Proof.
  destruct (proj2 (generate_all_counts_or_propagates
                     (λ name w, if bool_decide (name = "gen_03_euler_path")
                                then (w, Py.Raises Py.KeyboardInterrupt)
                                else Repo.import_module Repo.Lecture08 name w)
                     (λ _ w, w) (λ _ w, w) (λ p, p)
                     (Repo.script_dir Repo.Lecture08) (Repo.images_dir Repo.Lecture08)
                     "lecture-08"
                     ["gen_01_konigsberg"; "gen_02_konigsberg_graph"; "gen_03_euler_path";
                      "gen_04_cayley_trees"])
                  {| Runner.world := []; Runner.out := [] |})
    as (st' & Hworld & Hmain).
  exists st'. split; [exact (proj1 Hmain)|]. rewrite Hworld. reflexivity.
Defined.

(** [gen_04_cayley_trees] draws at module level and defines no [main]. *)
Lemma run_script_without_main_witness :
  Runner.run_script (Repo.import_module Repo.Lecture08) "gen_04_cayley_trees"
    {| Runner.world := []; Runner.out := [] |}
  = ({| Runner.world := [Repo.output_path Repo.Lecture08 "04-cayley-trees.png"];
        Runner.out := [] |}, Py.Returns true).
Proof.
  apply (run_script_without_main (Repo.import_module Repo.Lecture08)
           "gen_04_cayley_trees" {| Runner.world := []; Runner.out := [] |}
           [Repo.output_path Repo.Lecture08 "04-cayley-trees.png"]
           {| Runner.py_main := None |}); reflexivity.
Defined.

(** The runner of lecture-08, when no script raises: every name of
    [SCRIPTS] is a script of the directory, the nineteen images are saved
    in the order of the list, and the exit status is 0. *)
Theorem generate_all_lecture_08_saves_every_image :
  Forall (λ name, name ∈ (Repo.scripts Repo.Lecture08).*1) Repo.SCRIPTS_lecture_08 ∧
  ∃ st',
    Repo.generate_all_lecture_08 {| Runner.world := []; Runner.out := [] |}
    = (st', Py.Returns 0%Z) ∧
    Runner.world st' =
      Repo.output_path Repo.Lecture08 <$>
        [ "01-konigsberg-map.png"; "02-konigsberg-graph.png"; "03-euler-path-rule.png";
          "04-cayley-trees.png"; "05-parse-tree.png"; "06-random-graph-phases.png";
          "07-small-world.png"; "08-six-degrees.png"; "09-pagerank-web.png";
          "10-pagerank-surfer.png"; "11-nn-architectures.png";
          "12-attention-complete.png"; "13-knowledge-graph.png";
          "14-rag-pipeline.png"; "15-gnn-message.png"; "16-molecule-graph.png";
          "17-timeline-chain.png"; "18-milgram-letters.png";
          "19-graphrag-concept.png" ] ∧
    Runner.Summary 19 19 ∈ Runner.out st'.
Proof.
  split.
  { apply (bool_decide_unpack _). by vm_compute. }
  eexists. split; [by vm_compute|]. split; [by vm_compute|].
  simpl. set_solver.
Qed.

(** ** The download scripts *)

Section download_facts.
Import Py Download.
Context {World exn : Type} `{!ExceptionClass exn}.
Variable fetch : string → string → World → World * outcome exn (list Byte.byte).
Variable write_file : string → list Byte.byte → World → World * outcome exn unit.
Variable makedirs : string → World → World.
Variable abspath : string → string.
Variable SCRIPT_DIR : string.

Local Abbreviation download := (Download.download fetch write_file).
Local Abbreviation download_external := (Download.download_external fetch write_file).
Local Abbreviation download_portrait := (Download.download_portrait fetch write_file).
Local Abbreviation download_effect := (Download.download_effect fetch write_file).
Local Abbreviation download_log := (Download.download_log fetch write_file).
Local Abbreviation download_all := (Download.download_all (World:=World) (exn:=exn)).
Local Abbreviation main_of := (Download.main_of (World:=World) (exn:=exn) makedirs abspath).
Local Abbreviation download_external_main :=
  (Download.download_external_main fetch write_file makedirs abspath SCRIPT_DIR).
Local Abbreviation download_portraits_main :=
  (Download.download_portraits_main fetch write_file makedirs abspath SCRIPT_DIR).

Ltac run_download :=
  unfold mbind, mret, M_bind, M_ret, bind, ret, try_except_Exception, lift,
    Download.in_world, Download.print;
  simpl.

(** One download, case by case: what it returns or raises, the world it
    leaves and the lines it prints. *)
Local Abbreviation download_spec fn agent :=
  (∀ filename url description dest_dir (st : state World exn),
     let dest_path := path_join dest_dir filename in
     let warning e := [Downloading filename description; Warning filename e;
                       ManualDownload url; SaveTo dest_path] in
     ∃ st',
       match fetch agent url (world st) with
       | (w1, Raises e) =>
           world st' = w1 ∧
           if is_Exception e
           then fn filename url description dest_dir st = (st', Returns false) ∧
                out st' = out st ++ warning e
           else fn filename url description dest_dir st = (st', Raises e) ∧
                out st' = out st ++ [Downloading filename description]
       | (w1, Returns data) =>
           match write_file dest_path data w1 with
           | (w2, Returns _) =>
               world st' = w2 ∧
               fn filename url description dest_dir st = (st', Returns true) ∧
               out st' = out st ++ [Downloading filename description;
                                    Saved filename (length data)]
           | (w2, Raises e) =>
               world st' = w2 ∧
               if is_Exception e
               then fn filename url description dest_dir st = (st', Returns false) ∧
                    out st' = out st ++ warning e
               else fn filename url description dest_dir st = (st', Raises e) ∧
                    out st' = out st ++ [Downloading filename description]
           end
       end).

Lemma download_cases agent : download_spec (download agent) agent.
Proof.
  intros filename url description dest_dir st dest_path warning.
  unfold Download.download. run_download. fold dest_path.
  destruct st as [w o]; simpl.
  destruct (fetch agent url w) as [w1 [data|e]]; simpl.
  - destruct (write_file dest_path data w1) as [w2 [[]|e]]; simpl.
    + eexists {| world := w2; out := _ |}. split; [done|]. split; [done|].
      simpl. by rewrite <-!app_assoc.
    + destruct (is_Exception e); simpl.
      * eexists {| world := w2; out := _ |}. split; [done|]. split; [done|].
        simpl. by rewrite <-!app_assoc.
      * by eexists {| world := w2; out := _ |}.
  - destruct (is_Exception e); simpl.
    + eexists {| world := w1; out := _ |}. split; [done|]. split; [done|].
      simpl. by rewrite <-!app_assoc.
    + by eexists {| world := w1; out := _ |}.
Qed.

(** The same, against [download_effect]. *)
Lemma download_returns agent filename url description dest_dir
    (st : state World exn) :
  ∃ o,
    download agent filename url description dest_dir st =
    match download_effect agent url (path_join dest_dir filename) (world st) with
    | (w', None) => ({| world := w'; out := o |}, Returns true)
    | (w', Some e) =>
        ({| world := w'; out := o |},
         if is_Exception e then Returns false else Raises e)
    end.
Proof.
  destruct (download_cases agent filename url description dest_dir st) as [st' Hst'].
  unfold Download.download_effect. destruct st' as [w' o']. exists o'.
  destruct (fetch agent url (world st)) as [w1 [data|e]]; simpl in *.
  - destruct (write_file (path_join dest_dir filename) data w1) as [w2 [[]|e]];
      simpl in *.
    + by destruct Hst' as (-> & -> & _).
    + destruct Hst' as (-> & Hst'). by destruct (is_Exception e), Hst' as [-> _].
  - destruct Hst' as (-> & Hst'). by destruct (is_Exception e), Hst' as [-> _].
Qed.

Lemma download_all_log agent dest_dir items :
  ∀ successes failures (st : state World exn),
  ∃ o,
    download_all (download agent) dest_dir items successes failures st =
    ({| world := (download_log agent dest_dir items (world st)).1.2; out := o |},
     match (download_log agent dest_dir items (world st)).2 with
     | None =>
         Returns (successes + successes_of (download_log agent dest_dir items (world st)).1.1,
                  failures ++ failures_of (download_log agent dest_dir items (world st)).1.1)
     | Some e => Raises e
     end).
Proof.
  induction items as [|[[filename url] description] rest IH];
    intros successes failures st.
  - exists (out st). simpl. unfold mret, M_ret, ret. destruct st; simpl.
    by rewrite Nat.add_0_r, app_nil_r.
  - simpl. unfold mbind, M_bind, bind at 1.
    destruct (download_returns agent filename url description dest_dir st)
      as (o1 & ->).
    destruct (download_effect agent url (path_join dest_dir filename) (world st))
      as [w' [e|]]; simpl.
    + destruct (is_Exception e); simpl.
      * unfold bind at 1, Download.print at 1, lift at 1. simpl.
        edestruct IH as [o Ho]. rewrite Ho. simpl. exists o.
        destruct (download_log agent dest_dir rest w') as [[runs w''] stop]. simpl.
        destruct stop; [done|]. unfold failures_of. simpl. by rewrite <-app_assoc.
      * by exists o1.
    + unfold bind at 1, Download.print at 1, lift at 1. simpl.
      edestruct IH as [o Ho]. rewrite Ho. simpl. exists o.
      destruct (download_log agent dest_dir rest w') as [[runs w''] stop]. simpl.
      destruct stop; [done|]. do 3 f_equal. unfold successes_of. simpl. lia.
Qed.

Lemma download_log_names agent dest_dir items : ∀ w : World,
  match (download_log agent dest_dir items w).2 with
  | None => (download_log agent dest_dir items w).1.1.*1 = items.*1.*1
  | Some e =>
      is_Exception e = false ∧
      ∃ filename rest,
        items.*1.*1 = (download_log agent dest_dir items w).1.1.*1 ++ filename :: rest
  end.
Proof.
  induction items as [|[[filename url] description] rest IH]; intros w; simpl; [done|].
  destruct (download_effect agent url (path_join dest_dir filename) w)
    as [w' [e|]]; simpl.
  - destruct (is_Exception e) eqn:He; simpl.
    + specialize (IH w').
      destruct (download_log agent dest_dir rest w') as [[runs w''] [e'|]]; simpl in *.
      * destruct IH as (? & n & r & Hr). split; [done|]. exists n, r. by f_equal.
      * by f_equal.
    + split; [done|]. by eexists _, _.
  - specialize (IH w').
    destruct (download_log agent dest_dir rest w') as [[runs w''] [e'|]]; simpl in *.
    + destruct IH as (? & n & r & Hr). split; [done|]. exists n, r. by f_equal.
    + by f_equal.
Qed.

Lemma failures_nil_iff (runs : list (string * bool)) :
  failures_of runs = [] ↔ Forall (λ r, r.2 = true) runs.
Proof.
  unfold failures_of. induction runs as [|[name [|]] runs IH]; simpl.
  - split; [constructor|done].
  - rewrite Forall_cons. simpl. rewrite <-IH. tauto.
  - rewrite Forall_cons. simpl. split; [done|]. by intros [? _].
Qed.

(** A run of [main()], against the log of its downloads. *)
Local Abbreviation main_spec main_prog agent dest_dir items :=
  (∀ st : state World exn,
     let w0 := makedirs dest_dir (world st) in
     let runs := (download_log agent dest_dir items w0).1.1 in
     ∃ st',
       world st' = (download_log agent dest_dir items w0).1.2 ∧
       match (download_log agent dest_dir items w0).2 with
       | None =>
           ∃ code,
             main_prog st = (st', Returns code) ∧
             runs.*1 = items.*1.*1 ∧
             (code = 0%Z ∨ code = 1%Z) ∧
             (code = 0%Z ↔ Forall (λ r, r.2 = true) runs)
       | Some e =>
           main_prog st = (st', Raises e) ∧ is_Exception e = false ∧
           ∃ filename rest, items.*1.*1 = runs.*1 ++ filename :: rest
       end).

Lemma main_of_log agent what dest_dir items :
  main_spec (main_of (download agent) what dest_dir items) agent dest_dir items.
Proof.
  intros st w0 runs.
  unfold Download.main_of. run_download.
  match goal with |- context [Download.download_all ?fn ?d ?l ?s ?f ?st0] =>
    destruct (download_all_log agent d l s f st0) as [o Ho] end.
  rewrite Ho. simpl. fold w0.
  pose proof (download_log_names agent dest_dir items w0) as Hnames.
  destruct (download_log agent dest_dir items w0) as [[runs' w'] stop] eqn:Hlog.
  simpl in *. subst runs. simpl.
  destruct stop as [e|]; simpl.
  - by exists {| world := w'; out := o |}.
  - pose proof (failures_nil_iff runs') as Hnil.
    destruct (bool_decide (failures_of runs' = [])) eqn:Hf; simpl.
    + apply bool_decide_eq_true in Hf.
      eexists {| world := w'; out := _ |}. split; [done|]. eexists. split; [done|].
      split; [done|]. split; [by left|]. split; [by intros _; apply Hnil|done].
    + apply bool_decide_eq_false in Hf.
      eexists {| world := w'; out := _ |}. split; [done|]. eexists. split; [done|].
      split; [done|]. split; [by right|]. split; [done|].
      intros Hall. by apply Hnil in Hall.
Qed.

(** Claim C8, amended.  [download_external] and [download_portrait]
    fetch the url with their [User-Agent] and write the bytes to
    [os.path.join(dest_dir, filename)]: they return [True] when both
    succeed; when either raises an instance of [Exception] they print
    the warning with the url and the destination and return [False]; any
    other exception ([KeyboardInterrupt], [SystemExit]) goes through
    them.  The tables hold 4 and 8 items.  Each [main()] attempts the
    items of its table in order; when no download raises such an
    exception, each item is attempted once and [main] returns 0 exactly
    when every download succeeded, and 1 otherwise; otherwise the run
    ends at the first download that raises one, and [main] raises it. *)
Theorem downloads_report_failures_or_propagate :
  download_spec download_external "MathForAI-Slides/1.0 (educational presentation)" ∧
  download_spec download_portrait "Mozilla/5.0" ∧
  length EXTERNALS = 4 ∧ length PORTRAITS = 8 ∧
  main_spec download_external_main
    "MathForAI-Slides/1.0 (educational presentation)"
    (path_join (path_join (path_join SCRIPT_DIR "..") "images") "external")
    EXTERNALS ∧
  main_spec download_portraits_main "Mozilla/5.0"
    (path_join (path_join (path_join SCRIPT_DIR "..") "images") "portraits")
    PORTRAITS.
Proof.
  split; [apply download_cases|]. split; [apply download_cases|].
  split; [done|]. split; [done|].
  split; apply main_of_log.
Qed.

End download_facts.

(** Claim C8 as it is stated fails: a [KeyboardInterrupt] raised by the
    fetch is not an [Exception], so it leaves [download_external]. *)
Lemma download_external_lets_keyboard_interrupt_through :
  Download.download_external
    (λ _ _ w, (w, Py.Raises Py.KeyboardInterrupt)) (λ _ _ w, (w, Py.Returns tt))
    "xkcd-machine-learning.png" "https://imgs.xkcd.com/comics/machine_learning.png"
    "XKCD #1838: Machine Learning (CC BY-NC 2.5)" "images/external"
    {| Download.world := tt; Download.out := [] |}
  = ({| Download.world := tt;
        Download.out := [Download.Downloading "xkcd-machine-learning.png"
                           "XKCD #1838: Machine Learning (CC BY-NC 2.5)"] |},
     Py.Raises Py.KeyboardInterrupt).
Proof. reflexivity. Qed.

(** A network that is down: every fetch raises [URLError], an
    [Exception]; both scripts try every item and exit with 1. *)
Lemma downloads_report_failures_or_propagate_witness :
  let offline : string → string → unit → unit * Py.outcome Py.exception (list Byte.byte) :=
    λ _ _ w, (w, Py.Raises (Py.ExceptionInstance "URLError" "unreachable")) in
  let disk : string → list Byte.byte → unit → unit * Py.outcome Py.exception unit :=
    λ _ _ w, (w, Py.Returns tt) in
  let st0 := {| Download.world := tt; Download.out := [] |} in
  (Download.download_external_main offline disk (λ _ w, w) (λ p, p) "python" st0).2
    = Py.Returns 1%Z ∧
  (Download.download_portraits_main offline disk (λ _ w, w) (λ p, p) "python" st0).2
    = Py.Returns 1%Z.
Proof.
  intros offline disk st0.
  destruct (downloads_report_failures_or_propagate offline disk (λ _ w, w) (λ p, p) "python")
    as (_ & _ & _ & _ & Hext & Hport).
  split.
  - destruct (Hext st0) as (st' & _ & code & Hmain & _ & _ & Hcode).
    rewrite Hmain. simpl. f_equal. vm_compute in Hmain. by injection Hmain as _ <-.
  - destruct (Hport st0) as (st' & _ & code & Hmain & _ & _ & Hcode).
    rewrite Hmain. simpl. f_equal. vm_compute in Hmain. by injection Hmain as _ <-.
Defined.

(** ** The generators *)

Section script_facts.
Import Py Repo.

Variable draw_raises savefig_raises : string → option exception.

Local Abbreviation figure :=
  (Script.figure (World:=list string) (λ _ w, w)
     (λ script_name w, (w, raising (draw_raises script_name)))
     (λ path w, (w ++ [path], raising (savefig_raises path)))
     (λ w, w) (λ _ w, w)).

(** The shared statements on the recording file system: nothing is
    saved when the plotting raises, and [plt.savefig] is called once
    otherwise. *)
Lemma figure_recorded script_name shown path (w : list string) :
  figure script_name shown path w =
  match draw_raises script_name with
  | Some e => (w, Raises e)
  | None =>
      match savefig_raises path with
      | Some e => (w ++ [path], Raises e)
      | None => (w ++ [path], Returns tt)
      end
  end.
Proof.
  unfold Script.figure, mbind, M_bind, bind, lift, raising. simpl.
  destruct (draw_raises script_name); [done|].
  by destruct (savefig_raises path).
Qed.

(** What the amended claim says of the script [s] called [name] in the
    directory of the lecture [l]. *)
Local Abbreviation saves_png_files l name s :=
  (∃ images : list string,
     Forall (λ image, Repo.endswith image ".png" = true ∧
                      String.index 0 "/" image = None ∧
                      output_path l image = images_dir l +:+ "/" +:+ image) images ∧
     NoDup images ∧
     (name = "gen_20_section_icons" → images = Script.ICONS.*1.*1) ∧
     length images = (if bool_decide (name = "gen_20_section_icons") then 5 else 1) ∧
     (Script.run s []).1 `prefix_of` (output_path l <$> images) ∧
     ((Script.run s []).2 = Returns tt →
      (Script.run s []).1 = output_path l <$> images)).

Local Ltac one_image image :=
  exists [image]; split; [by repeat constructor|];
  split; [apply NoDup_singleton|]; split; [done|]; split; [done|].

Lemma figure_on_import_saves l script_name image :
  Repo.endswith image ".png" = true →
  String.index 0 "/" image = None →
  output_path l image = images_dir l +:+ "/" +:+ image →
  bool_decide (script_name = "gen_20_section_icons") = false →
  saves_png_files l script_name
    (Script.figure_on_import (λ _ w, w)
       (λ script_name w, (w, raising (draw_raises script_name)))
       (λ path w, (w ++ [path], raising (savefig_raises path)))
       (λ w, w) (λ _ w, w) (script_dir l) script_name image).
Proof.
  intros Hpng Hslash Hpath Hname.
  pose proof (proj1 (bool_decide_eq_false _) Hname) as Hne. rewrite Hname.
  one_image image.
  unfold Script.run, Script.figure_on_import.
  cbn [Script.on_import Script.main]. unfold mbind, M_bind, bind, ret.
  rewrite !figure_recorded.
  change (Script.OUTPUT_PATH (script_dir l) image) with (output_path l image).
  destruct (draw_raises script_name); cbn [fst snd].
  { split; [apply prefix_nil|done]. }
  destruct (savefig_raises (output_path l image)); cbn [fst snd app fmap list_fmap];
    by split.
Qed.

Lemma figure_in_main_saves l script_name image :
  Repo.endswith image ".png" = true →
  String.index 0 "/" image = None →
  output_path l image = images_dir l +:+ "/" +:+ image →
  bool_decide (script_name = "gen_20_section_icons") = false →
  saves_png_files l script_name
    (Script.figure_in_main (λ _ w, w)
       (λ script_name w, (w, raising (draw_raises script_name)))
       (λ path w, (w ++ [path], raising (savefig_raises path)))
       (λ w, w) (λ _ w, w) (λ p, p) (script_dir l) script_name image).
Proof.
  intros Hpng Hslash Hpath Hname.
  pose proof (proj1 (bool_decide_eq_false _) Hname) as Hne. rewrite Hname.
  one_image image.
  unfold Script.run, Script.figure_in_main.
  cbn [Script.on_import Script.main]. unfold mbind, M_bind, bind, ret.
  rewrite !figure_recorded.
  change (Script.OUTPUT_PATH (script_dir l) image) with (output_path l image).
  destruct (draw_raises script_name); cbn [fst snd].
  { split; [apply prefix_nil|done]. }
  destruct (savefig_raises (output_path l image)); cbn [fst snd app fmap list_fmap];
    by split.
Qed.

Lemma section_icons_saves :
  saves_png_files LectureNew "gen_20_section_icons"
    (Script.section_icons (λ _ w, w)
       (λ script_name w, (w, raising (draw_raises script_name)))
       (λ path w, (w ++ [path], raising (savefig_raises path)))
       (λ w, w) (λ _ w, w) (λ p, p) (script_dir LectureNew)).
Proof.
  exists (Script.ICONS.*1.*1).
  split; [by repeat constructor|].
  split; [apply (bool_decide_unpack _); by vm_compute|].
  split; [done|]. split; [done|].
  unfold Script.run, Script.section_icons.
  cbn [Script.on_import Script.main]. unfold mbind, M_bind.
  unfold Script.ICONS, Py.for_each. unfold bind, ret.
  change (Script.OUTPUT_PATH (script_dir LectureNew)) with (output_path LectureNew).
  cbn [fmap list_fmap fst].
  destruct (draw_raises "gen_20_section_icons") eqn:Hdraw.
  { rewrite !figure_recorded, !Hdraw. cbn [fst snd]. split; [apply prefix_nil|done]. }
  do 5 (rewrite !figure_recorded, !Hdraw;
        match goal with
        | |- context [savefig_raises ?p] => destruct (savefig_raises p)
        end;
        cbn [fst snd app]; [split; [by eexists|done]|]).
  by split.
Qed.


End script_facts.




(** ** Softmax *)

Section softmax_facts.
Import Softmax.
Local Open Scope R_scope.

Local Abbreviation exp := Rtrigo_def.exp.

Lemma real_sum_cons (x : R) (e : list R) : real_sum (x :: e) = x + real_sum e.
Proof. done. Qed.

Lemma real_sum_nil : real_sum [] = 0.
Proof. done. Qed.

Lemma real_sum_scale (f : R → R) (z : list R) (s : R) :
  real_sum ((λ x, f x / s) <$> z) = real_sum (f <$> z) / s.
Proof.
  induction z as [|x z IH].
  - rewrite !fmap_nil, real_sum_nil. unfold Rdiv. by rewrite Rmult_0_l.
  - rewrite !fmap_cons, !real_sum_cons, IH. unfold Rdiv. by rewrite Rmult_plus_distr_r.
Qed.

Lemma real_sum_exp_pos (z : list R) : z ≠ [] → 0 < real_sum (exp <$> z).
Proof.
  destruct z as [|x z]; [done|]. intros _. rewrite fmap_cons, real_sum_cons.
  assert (0 <= real_sum (exp <$> z)) as Hrest.
  { induction z as [|y z IH]; [rewrite fmap_nil, real_sum_nil; lra|].
    rewrite fmap_cons, real_sum_cons. pose proof (exp_pos y). lra. }
  pose proof (exp_pos x). lra.
Qed.

Lemma real_sum_exp_shift (z : list R) (m : R) :
  real_sum ((λ x, exp (x - m)) <$> z) = real_sum (exp <$> z) / exp m.
Proof.
  induction z as [|x z IH].
  - rewrite !fmap_nil, real_sum_nil. unfold Rdiv. by rewrite Rmult_0_l.
  - rewrite !fmap_cons, !real_sum_cons, IH. unfold Rminus, Rdiv.
    rewrite exp_plus, exp_Ropp. by rewrite Rmult_plus_distr_r.
Qed.

Lemma softmax_textbook (z : list R) (m : R) :
  z ≠ [] →
  (λ x, x / real_sum ((λ x, exp (x - m)) <$> z)) <$> ((λ x, exp (x - m)) <$> z)
  = textbook_softmax z.
Proof.
  intros Hz. unfold textbook_softmax. rewrite <-list_fmap_compose.
  apply list_fmap_ext. intros _ x _. simpl.
  rewrite real_sum_exp_shift. pose proof (real_sum_exp_pos z Hz). pose proof (exp_pos m).
  unfold Rminus. rewrite exp_plus, exp_Ropp. field. split; lra.
Qed.


End softmax_facts.



(** ** Gradient descent *)

Section gradient_descent_facts.
Import GradientDescent.
Context {F : Type} {arith : Arith F}.

Lemma loss_fn_raises (x y : F) :
  loss_fn x y = None ↔ pow x 2 = None ∨ pow y 2 = None.
Proof.
  unfold loss_fn. destruct (pow x 2), (pow y 2); simpl; naive_solver.
Qed.

Lemma grad_fn_central_difference (x y dx dy : F) :
  grad_fn x y = Some (dx, dy) ↔
  ∃ a b c d,
    loss_fn (x + lit 1e-5)%num y = Some a ∧ loss_fn (x - lit 1e-5)%num y = Some b ∧
    loss_fn x (y + lit 1e-5)%num = Some c ∧ loss_fn x (y - lit 1e-5)%num = Some d ∧
    div (a - b)%num (lit 2 * lit 1e-5)%num = Some dx ∧
    div (c - d)%num (lit 2 * lit 1e-5)%num = Some dy.
Proof.
  unfold grad_fn. split.
  - intros Hg.
    destruct (loss_fn (x + lit 1e-5)%num y) as [a|]; [|done].
    destruct (loss_fn (x - lit 1e-5)%num y) as [b|]; [|done]. simpl in Hg.
    destruct (div (a - b)%num (lit 2 * lit 1e-5)%num) as [dfdx|] eqn:Hdx; [|done].
    simpl in Hg.
    destruct (loss_fn x (y + lit 1e-5)%num) as [c|]; [|done].
    destruct (loss_fn x (y - lit 1e-5)%num) as [d|]; [|done]. simpl in Hg.
    destruct (div (c - d)%num (lit 2 * lit 1e-5)%num) as [dfdy|] eqn:Hdy; [|done].
    simpl in Hg. injection Hg as -> ->. by exists a, b, c, d.
  - intros (a & b & c & d & -> & -> & -> & -> & Hdx & Hdy). simpl.
    rewrite Hdx. simpl. by rewrite Hdy.
Qed.

Lemma descend_step lr (x y x' y' l' : F) :
  descend lr x y = Some (x', y', l') ↔
  ∃ dx dy, grad_fn x y = Some (dx, dy) ∧
           x' = (x - lr * dx)%num ∧ y' = (y - lr * dy)%num ∧
           loss_fn x' y' = Some l'.
Proof.
  unfold descend. split.
  - destruct (grad_fn x y) as [[dx dy]|]; [|done]. simpl.
    destruct (loss_fn (x - lr * dx)%num (y - lr * dy)%num) as [l|] eqn:Hl; [|done].
    simpl. intros [= <- <- <-]. by exists dx, dy.
  - intros (dx & dy & -> & -> & -> & Hl). simpl. by rewrite Hl.
Qed.

Lemma well_formed_snoc lr path (p q : F * F * F) :
  well_formed lr path → last path = Some p →
  descend lr p.1.1 p.1.2 = Some q →
  well_formed lr (path ++ [q]).
Proof.
  intros [Hstep Hloss] Hlast Hq. split.
  - intros k a b Ha Hb.
    destruct (decide (S k < length path)) as [Hlt|Hge].
    + rewrite lookup_app_l in Ha, Hb by lia. eauto.
    + assert (S k = length path) as Hk.
      { apply lookup_lt_Some in Hb. rewrite length_app in Hb. simpl in Hb. lia. }
      rewrite lookup_app_l in Ha by lia.
      rewrite last_lookup in Hlast. replace (pred (length path)) with k in Hlast by lia.
      rewrite Hk, lookup_app_r, Nat.sub_diag in Hb by lia. simpl in Hb. congruence.
  - intros k a Ha.
    destruct (decide (k < length path)) as [Hlt|Hge].
    + rewrite lookup_app_l in Ha by lia. eauto.
    + rewrite lookup_app_r in Ha by lia.
      destruct (k - length path) as [|k'] eqn:Hk; simpl in Ha; [|done].
      simplify_eq. destruct a as [[x' y'] l'].
      apply descend_step in Hq as (dx & dy & _ & _ & _ & Hl). exact Hl.
Qed.

Lemma iterate_returns lr k : ∀ x y path l path',
  well_formed lr path → last path = Some (x, y, l) →
  iterate lr k x y path = Some path' →
  well_formed lr path' ∧
  length path' = length path + k ∧
  ∀ j, j < length path → path' !! j = path !! j.
Proof.
  induction k as [|k IH]; intros x y path l path' Hwf Hlast; cbn [iterate].
  - intros [= <-]. split; [done|]. split; [lia|done].
  - destruct (descend lr x y) as [[[x' y'] l']|] eqn:Hd; [|done]. simpl.
    intros Hrun.
    pose proof (well_formed_snoc lr path (x, y, l) (x', y', l') Hwf Hlast Hd) as Hwf'.
    destruct (IH x' y' (path ++ [(x', y', l')]) l' path' Hwf') as (Hwf'' & Hlen & Hpre).
    { by rewrite last_snoc. }
    { done. }
    split; [done|]. split.
    + rewrite Hlen, length_app. simpl. lia.
    + intros j Hj. rewrite Hpre by (rewrite length_app; simpl; lia).
      by apply lookup_app_l.
Qed.

Lemma iterate_raises lr k : ∀ x y path l,
  last path = Some (x, y, l) →
  iterate lr k x y path = None →
  ∃ j path' x' y' l',
    j < k ∧ iterate lr j x y path = Some path' ∧
    last path' = Some (x', y', l') ∧ descend lr x' y' = None.
Proof.
  induction k as [|k IH]; intros x y path l Hlast; cbn [iterate]; [done|].
  destruct (descend lr x y) as [[[x1 y1] l1]|] eqn:Hd; simpl.
  - intros Hrun.
    destruct (IH x1 y1 (path ++ [(x1, y1, l1)]) l1) as (j & path' & x' & y' & l' & ? & Hj & ? & ?).
    { by rewrite last_snoc. }
    { done. }
    exists (S j), path', x', y', l'. split; [lia|]. split; [|done].
    cbn [iterate]. by rewrite Hd.
  - intros _. exists 0, path, x, y, l. split; [lia|]. by split.
Qed.

Lemma iterate_total lr k : ∀ x y path,
  (∀ x y, is_Some (descend lr x y)) → is_Some (iterate lr k x y path).
Proof.
  induction k as [|k IH]; intros x y path Htotal; cbn [iterate]; [done|].
  destruct (Htotal x y) as [p ->]. simpl. by apply IH.
Qed.



End gradient_descent_facts.

#[local] Set Warnings "-inexact-float".




